(** * Hackflight attitude stabilisation: [Stabilize] and [AnglePid]

    A shallow embedding of [src/stabilize.hpp] and
    [src/pidcontrollers/angle.hpp].

    - C++ [float] is IEEE-754 binary32: the operations are those of
      [SpecFloat] at precision 24 and maximal exponent 128 (round to
      nearest, ties to even).
    - [int16_t] and [int32_t] are [Z] with the two's-complement wrap-around
      written out where the source narrows or adds.  A cast of a float
      whose integral part does not fit, which C++ leaves undefined, yields
      the pattern 0x80000000.
    - The arrays of the classes are lists read with [!!!] and written with
      [<[i:=v]>]; the source only indexes them with the axis constants.
    - Member functions take the object and return the new object next to
      their result.
    - [filter.hpp], [filters.hpp], [config.hpp] and [model.hpp] are not among
      the sources: the three [Filter] utilities and the configuration records
      follow the specification. *)

From Stdlib Require Import ZArith Lia Bool List.
From Stdlib Require Import Floats.SpecFloat.
From stdpp Require Import base list.

Local Open Scope Z_scope.

(** ** Machine integers *)

Module Int.

(** The value of the [w]-bit two's-complement pattern of [z]. *)
Definition wrap (w : Z) (z : Z) : Z :=
  (z + 2 ^ (w - 1)) mod 2 ^ w - 2 ^ (w - 1).

Definition int16 (z : Z) : Z := wrap 16 z.
Definition int32 (z : Z) : Z := wrap 32 z.

Definition INT32_MIN : Z := - 2 ^ 31.

Definition in_int16 (z : Z) : bool := (- 2 ^ 15 <=? z) && (z <? 2 ^ 15).
Definition in_int32 (z : Z) : bool := (- 2 ^ 31 <=? z) && (z <? 2 ^ 31).

End Int.

(** ** binary32 *)

Module F32.

Definition prec : Z := 24.
Definition emax : Z := 128.

Definition float : Type := spec_float.

Definition mul : float -> float -> float := SFmul prec emax.
Definition add : float -> float -> float := SFadd prec emax.
Definition sub : float -> float -> float := SFsub prec emax.
Definition div : float -> float -> float := SFdiv prec emax.
Definition opp : float -> float := SFopp.
Definition abs : float -> float := SFabs.
Definition ltb : float -> float -> bool := SFltb.
Definition leb : float -> float -> bool := SFleb.

(** Conversion of an integer to [float] (exact up to 24 significant bits,
    rounded to nearest beyond). *)
Definition of_Z (z : Z) : float := binary_normalize prec emax z 0 false.

Definition zero : float := S754_zero false.
Definition one : float := Eval vm_compute in of_Z 1.
Definition one_half : float := S754_finite false 8388608 (-24).

(** A float in canonical form: the mantissa has 24 bits, or fewer at the
    least exponent, and the exponent is in range. *)
Definition valid (f : float) : bool := valid_binary prec emax f.

(** The float with the same mantissa and the exponent one less. *)
Definition half (f : float) : float :=
  match f with
  | S754_finite s m e => S754_finite s m (e - 1)
  | _ => f
  end.

(** The exponent of a finite float is at least [k]. *)
Definition exponent_ge (k : Z) (f : float) : bool :=
  match f with
  | S754_finite _ _ e => k <=? e
  | _ => true
  end.

(** The integral part of a float, rounding toward zero; [None] for
    infinities and NaN. *)
Definition trunc (f : float) : option Z :=
  match f with
  | S754_zero _ => Some 0
  | S754_finite s m e =>
      Some (cond_Zopp s
              (match e with
               | Z0 => Zpos m
               | Zpos _ => Zpos m * 2 ^ e
               | Zneg p => Zpos m / 2 ^ Zpos p
               end))
  | _ => None
  end.

(** The cast [(int32_t)f].  C++ leaves the cast undefined when the integral
    part does not fit; the model then yields the pattern 0x80000000, as the
    conversion instruction of x86 does. *)
Definition to_int32 (f : float) : Z :=
  match trunc f with
  | Some z => if Int.in_int32 z then z else Int.INT32_MIN
  | None => Int.INT32_MIN
  end.

(** Initialising an [int16_t] from a float: converted as above, then
    narrowed. *)
Definition to_int16 (f : float) : Z := Int.int16 (to_int32 f).

Definition is_nan (f : float) : bool :=
  match f with S754_nan => true | _ => false end.

(** Zero or finite: a number that is neither an infinity nor NaN. *)
Definition is_finite (f : float) : bool :=
  match f with S754_zero _ | S754_finite _ _ _ => true | _ => false end.

End F32.

Abbreviation float := F32.float.

#[global] Instance float_inhabited : Inhabited float := populate F32.zero.

(** ** Numeric utilities *)

Module Filter.

(** Modelled from the spec: [Filter::constrainAbs] ([filter.hpp] is not among
    the sources).  "Clamps value into [-bound, +bound]".  [Stabilize] calls
    it on integers. *)
Definition constrainAbs (val bound : Z) : Z :=
  if val <? - bound then - bound
  else if bound <? val then bound
  else val.

(** Modelled from the spec: [Filter::constrainAbs] as [AnglePid] calls it, on
    floats ([filters.hpp] is not among the sources). *)
Definition constrainAbsF (val bound : float) : float :=
  if F32.ltb val (F32.opp bound) then F32.opp bound
  else if F32.ltb bound val then bound
  else val.

(** Modelled from the spec: [Filter::complementary] ([filter.hpp] is not
    among the sources).  "Returns a*(1-proportion) + b*proportion". *)
Definition complementary (a b proportion : float) : float :=
  F32.add (F32.mul a (F32.sub F32.one proportion)) (F32.mul b proportion).

(** binary32 nearest to pi. *)
Definition pi : float := S754_finite false 13176795 (-22).

(** Modelled from the spec: [Filter::deg2rad] ([filters.hpp] is not among the
    sources).  "Pure conversion" of degrees to radians. *)
Definition deg2rad (degrees : float) : float :=
  F32.div (F32.mul degrees pi) (F32.of_Z 180).

End Filter.

(** ** Axes *)

Definition AXIS_ROLL : nat := 0.
Definition AXIS_PITCH : nat := 1.
Definition AXIS_YAW : nat := 2.

(** ** Configuration *)

(** Modelled from the spec: [Model] ([model.hpp] is not among the sources):
    the gains [Stabilize] reads through [model->], as floats, and the three
    software trims. *)
Record Model := {
  ratePitchrollP : float;
  ratePitchrollI : float;
  ratePitchrollD : float;
  yawP : float;
  yawI : float;
  levelP : float;
  softwareTrimRoll : Z;
  softwareTrimPitch : Z;
  softwareTrimYaw : Z
}.

(** Modelled from the spec: [ImuConfig] ([config.hpp] is not among the
    sources): the maximum commanded inclination, in degrees. *)
Record ImuConfig := {
  maxAngleInclination : float
}.

(** Modelled from the spec: [StabilizeConfig] ([config.hpp] is not among the
    sources): the two windup bounds and the two reset thresholds, which the
    source compares with integers. *)
Record StabilizeConfig := {
  gyroWindupMax : Z;
  angleWindupMax : Z;
  bigGyro : Z;
  bigYawDemand : Z
}.

(** ** The stabilisation controller *)

Module Stabilize.

Record t := {
  axisPids : list Z;       (* int16_t [3] *)
  lastGyro : list Z;       (* int16_t [2] *)
  delta1 : list Z;         (* int32_t [2] *)
  delta2 : list Z;         (* int32_t [2] *)
  errorGyroI : list Z;     (* int32_t [3] *)
  errorAngleI : list Z;    (* int32_t [2] *)
  softwareTrim : list Z;   (* int16_t [3] *)
  board : Z;               (* Board *: an address; no method reads or
                              writes it *)
  model : Model;
  imuConfig : ImuConfig;
  config : StabilizeConfig
}.

Definition set_axisPids (v : list Z) (s : t) : t :=
  {| axisPids := v; lastGyro := lastGyro s; delta1 := delta1 s;
     delta2 := delta2 s; errorGyroI := errorGyroI s;
     errorAngleI := errorAngleI s; softwareTrim := softwareTrim s;
     board := board s; model := model s; imuConfig := imuConfig s;
     config := config s |}.

Definition set_lastGyro (v : list Z) (s : t) : t :=
  {| axisPids := axisPids s; lastGyro := v; delta1 := delta1 s;
     delta2 := delta2 s; errorGyroI := errorGyroI s;
     errorAngleI := errorAngleI s; softwareTrim := softwareTrim s;
     board := board s; model := model s; imuConfig := imuConfig s;
     config := config s |}.

Definition set_delta1 (v : list Z) (s : t) : t :=
  {| axisPids := axisPids s; lastGyro := lastGyro s; delta1 := v;
     delta2 := delta2 s; errorGyroI := errorGyroI s;
     errorAngleI := errorAngleI s; softwareTrim := softwareTrim s;
     board := board s; model := model s; imuConfig := imuConfig s;
     config := config s |}.

Definition set_delta2 (v : list Z) (s : t) : t :=
  {| axisPids := axisPids s; lastGyro := lastGyro s; delta1 := delta1 s;
     delta2 := v; errorGyroI := errorGyroI s;
     errorAngleI := errorAngleI s; softwareTrim := softwareTrim s;
     board := board s; model := model s; imuConfig := imuConfig s;
     config := config s |}.

Definition set_errorGyroI (v : list Z) (s : t) : t :=
  {| axisPids := axisPids s; lastGyro := lastGyro s; delta1 := delta1 s;
     delta2 := delta2 s; errorGyroI := v;
     errorAngleI := errorAngleI s; softwareTrim := softwareTrim s;
     board := board s; model := model s; imuConfig := imuConfig s;
     config := config s |}.

Definition set_errorAngleI (v : list Z) (s : t) : t :=
  {| axisPids := axisPids s; lastGyro := lastGyro s; delta1 := delta1 s;
     delta2 := delta2 s; errorGyroI := errorGyroI s;
     errorAngleI := v; softwareTrim := softwareTrim s;
     board := board s; model := model s; imuConfig := imuConfig s;
     config := config s |}.

Definition set_softwareTrim (v : list Z) (s : t) : t :=
  {| axisPids := axisPids s; lastGyro := lastGyro s; delta1 := delta1 s;
     delta2 := delta2 s; errorGyroI := errorGyroI s;
     errorAngleI := errorAngleI s; softwareTrim := v;
     board := board s; model := model s; imuConfig := imuConfig s;
     config := config s |}.

(** [Stabilize::resetIntegral] *)
Definition resetIntegral (s : t) : t :=
  let s := set_errorGyroI (<[AXIS_ROLL := 0]> (errorGyroI s)) s in
  let s := set_errorGyroI (<[AXIS_PITCH := 0]> (errorGyroI s)) s in
  let s := set_errorGyroI (<[AXIS_YAW := 0]> (errorGyroI s)) s in
  let s := set_errorAngleI (<[AXIS_ROLL := 0]> (errorAngleI s)) s in
  let s := set_errorAngleI (<[AXIS_PITCH := 0]> (errorAngleI s)) s in
  s.

(** The body of the loop of [init], for one [axis]. *)
Definition init_axis (axis : nat) (s : t) : t :=
  let s := set_lastGyro (<[axis := 0]> (lastGyro s)) s in
  let s := set_delta1 (<[axis := 0]> (delta1 s)) s in
  let s := set_delta2 (<[axis := 0]> (delta2 s)) s in
  s.

(** [Stabilize::init]: [s] is the object as it is before the call (the
    function leaves [axisPids] as it finds it). *)
Definition init (s : t) (_config : StabilizeConfig) (_imuConfig : ImuConfig)
    (_model : Model) : t :=
  let s :=
    {| axisPids := axisPids s; lastGyro := lastGyro s; delta1 := delta1 s;
       delta2 := delta2 s; errorGyroI := errorGyroI s;
       errorAngleI := errorAngleI s; softwareTrim := softwareTrim s;
       board := board s; model := _model; imuConfig := _imuConfig;
       config := _config |} in
  let s := init_axis 0 s in
  let s := init_axis 1 s in
  let s := set_softwareTrim
             (<[AXIS_ROLL := Int.int16 (softwareTrimRoll _model)]> (softwareTrim s)) s in
  let s := set_softwareTrim
             (<[AXIS_PITCH := Int.int16 (softwareTrimPitch _model)]> (softwareTrim s)) s in
  let s := set_softwareTrim
             (<[AXIS_YAW := Int.int16 (softwareTrimYaw _model)]> (softwareTrim s)) s in
  resetIntegral s.

(** The condition under which [computeITermGyro] resets the integral. *)
Definition resets (cfg : StabilizeConfig) (rcCommand : Z) (gyroRaw : list Z)
    (axis : nat) : bool :=
  (bigGyro cfg <? Z.abs (gyroRaw !!! axis))
  || ((axis =? AXIS_YAW)%nat && (bigYawDemand cfg <? Z.abs rcCommand)).

(** [Stabilize::computeITermGyro] *)
Definition computeITermGyro (s : t) (rateP rateI : float) (rcCommand : Z)
    (gyroRaw : list Z) (axis : nat) : Z * t :=
  let error :=
    Int.int32 (F32.to_int32 (F32.mul (F32.of_Z rcCommand) rateP)
               - gyroRaw !!! axis) in
  (* Avoid integral windup *)
  let s :=
    set_errorGyroI
      (<[axis := Int.int32
                   (Filter.constrainAbs
                      (Int.int32 (errorGyroI s !!! axis + error))
                      (gyroWindupMax (config s)))]> (errorGyroI s)) s in
  (* Reset integral on quick gyro change or large yaw command *)
  let s :=
    if resets (config s) rcCommand gyroRaw axis
    then set_errorGyroI (<[axis := 0]> (errorGyroI s)) s
    else s in
  (F32.to_int32 (F32.mul (F32.of_Z (errorGyroI s !!! axis)) rateI), s).

(** [Stabilize::computePid] *)
Definition computePid (s : t) (rateP : float) (PTerm ITerm DTerm : Z)
    (gyroRaw : list Z) (axis : nat) : Z :=
  let PTerm :=
    Int.int32 (PTerm - F32.to_int32 (F32.mul (F32.of_Z (gyroRaw !!! axis)) rateP)) in
  Int.int16
    (Int.int32
       (Int.int32 (Int.int32 (PTerm + ITerm) - DTerm) + softwareTrim s !!! axis)).

(** The angle error of [computeLevelPid], in tenths of a degree. *)
Definition errorAngle_of (imu : ImuConfig) (rcCommand : Z)
    (eulerAnglesDegrees : list float) (imuAxis : nat) : Z :=
  Int.int32
    (Int.int32
       (Filter.constrainAbs (Int.int32 (2 * rcCommand))
          (F32.to_int32
             (F32.mul (F32.of_Z 10) (maxAngleInclination imu))))
     - F32.to_int32 (F32.mul (F32.of_Z 10) (eulerAnglesDegrees !!! imuAxis))).

(** The intermediate terms of [computeLevelPid], kept for the statements
    about them. *)
Record level_terms := {
  ITermGyro : Z;
  PTermAccel : Z;
  PTerm : Z;
  ITerm : Z;
  DTerm : Z
}.

(** [Stabilize::computeLevelPid], with its intermediate terms. *)
Definition computeLevelPid_terms (s : t) (rcCommand : Z) (prop : float)
    (gyroRaw : list Z) (eulerAnglesDegrees : list float) (imuAxis : nat)
    : level_terms * Z * t :=
  let '(ITermGyro, s) :=
    computeITermGyro s (ratePitchrollP (model s)) (ratePitchrollI (model s))
      rcCommand gyroRaw imuAxis in
  let errorAngle :=
    errorAngle_of (imuConfig s) rcCommand eulerAnglesDegrees imuAxis in
  let PTermAccel :=
    F32.to_int32 (F32.mul (F32.of_Z errorAngle) (levelP (model s))) in
  (* Avoid integral windup *)
  let s :=
    set_errorAngleI
      (<[imuAxis := Int.int32
                      (Filter.constrainAbs
                         (Int.int32 (errorAngleI s !!! imuAxis + errorAngle))
                         (angleWindupMax (config s)))]> (errorAngleI s)) s in
  let PTerm :=
    F32.to_int32
      (Filter.complementary (F32.of_Z rcCommand) (F32.of_Z PTermAccel) prop) in
  let ITerm := F32.to_int32 (F32.mul (F32.of_Z ITermGyro) prop) in
  let delta := Int.int32 (gyroRaw !!! imuAxis - lastGyro s !!! imuAxis) in
  let s := set_lastGyro (<[imuAxis := gyroRaw !!! imuAxis]> (lastGyro s)) s in
  let deltaSum :=
    Int.int32 (Int.int32 (delta1 s !!! imuAxis + delta2 s !!! imuAxis) + delta) in
  let s := set_delta2 (<[imuAxis := delta1 s !!! imuAxis]> (delta2 s)) s in
  let s := set_delta1 (<[imuAxis := delta]> (delta1 s)) s in
  let DTerm :=
    F32.to_int32 (F32.mul (F32.of_Z deltaSum) (ratePitchrollD (model s))) in
  ({| ITermGyro := ITermGyro; PTermAccel := PTermAccel; PTerm := PTerm;
      ITerm := ITerm; DTerm := DTerm |},
   computePid s (ratePitchrollP (model s)) PTerm ITerm DTerm gyroRaw imuAxis,
   s).

(** [Stabilize::computeLevelPid]: computes PID for pitch or roll. *)
Definition computeLevelPid (s : t) (rcCommand : Z) (prop : float)
    (gyroRaw : list Z) (eulerAnglesDegrees : list float) (imuAxis : nat)
    : Z * t :=
  let '(_, out, s) :=
    computeLevelPid_terms s rcCommand prop gyroRaw eulerAnglesDegrees imuAxis in
  (out, s).

(** The terms of a call of [computeLevelPid]. *)
Definition terms_of (s : t) (rcCommand : Z) (prop : float) (gyroRaw : list Z)
    (eulerAnglesDegrees : list float) (imuAxis : nat) : level_terms :=
  fst (fst (computeLevelPid_terms s rcCommand prop gyroRaw eulerAnglesDegrees
              imuAxis)).

(** What [computePid] returns, from the gyro reading and the trim of its
    axis. *)
Definition pid_value (rateP : float) (PTerm ITerm DTerm : Z) (gyro trim : Z) : Z :=
  Int.int16
    (Int.int32
       (Int.int32
          (Int.int32
             (Int.int32 (PTerm - F32.to_int32 (F32.mul (F32.of_Z gyro) rateP))
              + ITerm)
           - DTerm)
        + trim)).

(** The integer demand [update] computes from a receiver command. *)
Definition demand_of (rcCommand : float) : Z :=
  F32.to_int16 (F32.mul (F32.of_Z 1000) rcCommand).

(** The proportion of cyclic demand compared to its maximum. *)
Definition prop_of (demandRoll demandPitch : Z) : float :=
  F32.div (F32.of_Z (Z.max (Z.abs demandRoll) (Z.abs demandPitch)))
    (F32.of_Z 500).

(** [Stabilize::update], from the integer demands on. *)
Definition update_demands (s : t) (demandRoll demandPitch demandYaw : Z)
    (gyroRaw : list Z) (eulerAnglesDegrees : list float) : t :=
  let prop := prop_of demandRoll demandPitch in
  (* Pitch, roll use leveling based on Euler angles *)
  let '(roll, s) :=
    computeLevelPid s demandRoll prop gyroRaw eulerAnglesDegrees AXIS_ROLL in
  let s := set_axisPids (<[AXIS_ROLL := roll]> (axisPids s)) s in
  let '(pitch, s) :=
    computeLevelPid s demandPitch prop gyroRaw eulerAnglesDegrees AXIS_PITCH in
  let s := set_axisPids (<[AXIS_PITCH := pitch]> (axisPids s)) s in
  (* For yaw, P term comes directly from RC command, and D term is zero *)
  let '(ITermGyroYaw, s) :=
    computeITermGyro s (yawP (model s)) (yawI (model s)) demandYaw gyroRaw
      AXIS_YAW in
  let yaw :=
    computePid s (yawP (model s)) demandYaw ITermGyroYaw 0 gyroRaw AXIS_YAW in
  let s := set_axisPids (<[AXIS_YAW := yaw]> (axisPids s)) s in
  (* Prevent "yaw jump" during yaw correction *)
  set_axisPids
    (<[AXIS_YAW := Int.int16
                     (Filter.constrainAbs (axisPids s !!! AXIS_YAW)
                        (100 + Z.abs demandYaw))]> (axisPids s)) s.

(** [Stabilize::update] *)
Definition update (s : t) (rcCommandRoll rcCommandPitch rcCommandYaw : float)
    (gyroRaw : list Z) (eulerAnglesDegrees : list float) : t :=
  update_demands s (demand_of rcCommandRoll) (demand_of rcCommandPitch)
    (demand_of rcCommandYaw) gyroRaw eulerAnglesDegrees.

(** One control tick: what [update] is called with. *)
Record tick := {
  tick_roll : float;
  tick_pitch : float;
  tick_yaw : float;
  tick_gyro : list Z;
  tick_euler : list float
}.

(** The object after [update] has run on each tick of a list in turn. *)
Fixpoint run (s : t) (ticks : list tick) : t :=
  match ticks with
  | [] => s
  | i :: rest =>
      run (update s (tick_roll i) (tick_pitch i) (tick_yaw i) (tick_gyro i)
             (tick_euler i)) rest
  end.

(** What [computeITermGyro] leaves in [errorGyroI[axis]], from the value
    [acc] it finds there. *)
Definition gyroI_next (cfg : StabilizeConfig) (acc : Z) (rateP : float)
    (rcCommand : Z) (gyroRaw : list Z) (axis : nat) : Z :=
  if resets cfg rcCommand gyroRaw axis then 0
  else
    Int.int32
      (Filter.constrainAbs
         (Int.int32
            (acc + Int.int32 (F32.to_int32 (F32.mul (F32.of_Z rcCommand) rateP)
                              - gyroRaw !!! axis)))
         (gyroWindupMax cfg)).

(** What [computeLevelPid] leaves in [errorAngleI[imuAxis]], from the value
    [acc] it finds there. *)
Definition angleI_next (cfg : StabilizeConfig) (imu : ImuConfig) (acc : Z)
    (rcCommand : Z) (eulerAnglesDegrees : list float) (imuAxis : nat) : Z :=
  Int.int32
    (Filter.constrainAbs
       (Int.int32 (acc + errorAngle_of imu rcCommand eulerAnglesDegrees imuAxis))
       (angleWindupMax cfg)).

(** A configuration the controller is meant to run with: finite gains, a
    gyro windup bound and an inclination limit that are not negative. *)
Definition sane (mdl : Model) (imu : ImuConfig) (cfg : StabilizeConfig) : bool :=
  F32.is_finite (ratePitchrollP mdl) && F32.is_finite (ratePitchrollI mdl)
  && F32.is_finite (ratePitchrollD mdl) && F32.is_finite (yawP mdl)
  && F32.is_finite (yawI mdl) && F32.is_finite (levelP mdl)
  && (0 <=? gyroWindupMax cfg)
  && (0 <=? F32.to_int32 (F32.mul (F32.of_Z 10) (maxAngleInclination imu))).

(** Every integral accumulator is within its configured windup bound. *)
Definition within_windup (s : t) : Prop :=
  (forall axis : nat, (axis < 3)%nat ->
     Z.abs (errorGyroI s !!! axis) <= gyroWindupMax (config s))
  /\ (forall axis : nat, (axis < 2)%nat ->
        Z.abs (errorAngleI s !!! axis) <= angleWindupMax (config s)).

(** Two objects that differ at most in [errorAngleI] (and in the [board]
    pointer, which no method reads). *)
Definition differ_only_in_errorAngleI (s1 s2 : t) : Prop :=
  axisPids s1 = axisPids s2 /\ lastGyro s1 = lastGyro s2
  /\ delta1 s1 = delta1 s2 /\ delta2 s1 = delta2 s2
  /\ errorGyroI s1 = errorGyroI s2 /\ softwareTrim s1 = softwareTrim s2
  /\ model s1 = model s2 /\ imuConfig s1 = imuConfig s2
  /\ config s1 = config s2.

(** The arrays of the object have their declared lengths. *)
Definition wf (s : t) : bool :=
  (length (axisPids s) =? 3)%nat
  && (length (lastGyro s) =? 2)%nat
  && (length (delta1 s) =? 2)%nat
  && (length (delta2 s) =? 2)%nat
  && (length (errorGyroI s) =? 3)%nat
  && (length (errorAngleI s) =? 2)%nat
  && (length (softwareTrim s) =? 3)%nat.

End Stabilize.

(** ** The rate PID controller *)

Module AnglePid.

Definition WINDUP_MAX : float := Eval vm_compute in F32.of_Z 6.
Definition BIG_DEGREES_PER_SECOND : float := Eval vm_compute in F32.of_Z 40.

Record t := {
  _bigAngularVelocity : float;
  _P : float;
  _I : float;
  _D : float;
  _lastError : float;
  _errorI : float;
  _demandScale : float
}.

Definition set_errorI (v : float) (s : t) : t :=
  {| _bigAngularVelocity := _bigAngularVelocity s; _P := _P s; _I := _I s;
     _D := _D s; _lastError := _lastError s; _errorI := v;
     _demandScale := _demandScale s |}.

Definition set_lastError (v : float) (s : t) : t :=
  {| _bigAngularVelocity := _bigAngularVelocity s; _P := _P s; _I := _I s;
     _D := _D s; _lastError := v; _errorI := _errorI s;
     _demandScale := _demandScale s |}.

(** [AnglePid::resetIntegral] *)
Definition resetIntegral (s : t) : t := set_errorI F32.zero s.

(** [AnglePid::init] *)
Definition init (P I D demandScale : float) : t :=
  resetIntegral
    {| _bigAngularVelocity := Filter.deg2rad BIG_DEGREES_PER_SECOND;
       _P := P; _I := I; _D := D;
       _lastError := F32.zero; _errorI := F32.zero;
       _demandScale := demandScale |}.

(** The three terms [compute] adds up. *)
Record terms := { pterm : float; iterm : float; dterm : float }.

(** [AnglePid::compute], with its three terms. *)
Definition compute_terms (s : t) (demand angularVelocity itermFactor : float)
    : terms * t :=
  (* Compute P term *)
  let pterm :=
    F32.mul (F32.sub (F32.mul demand (_demandScale s)) angularVelocity) (_P s) in
  (* Compute error as scaled demand minus angular velocity *)
  let error := F32.sub (F32.mul demand (_demandScale s)) angularVelocity in
  (* Avoid integral windup *)
  let s := set_errorI (Filter.constrainAbsF (F32.add (_errorI s) error) WINDUP_MAX) s in
  (* Reset integral on quick angular velocity change *)
  let s :=
    if F32.ltb (_bigAngularVelocity s) (F32.abs angularVelocity)
    then set_errorI F32.zero s
    else s in
  (* Compute I term *)
  let iterm := F32.mul (_errorI s) (_I s) in
  (* Compute D term *)
  let dterm := F32.zero in
  let s :=
    if F32.ltb F32.zero (_D s)
    then
      let deltaError := F32.sub error (_lastError s) in
      set_lastError error s
    else s in
  ({| pterm := pterm; iterm := iterm; dterm := dterm |}, s).

(** [AnglePid::compute] *)
Definition compute (s : t) (demand angularVelocity itermFactor : float)
    : float * t :=
  let '(tm, s) := compute_terms s demand angularVelocity itermFactor in
  (F32.add (F32.add (pterm tm) (iterm tm)) (dterm tm), s).

(** [AnglePid::updateReceiver]: when landed, reset the integral. *)
Definition updateReceiver (s : t) (throttleIsDown : bool) : t :=
  if throttleIsDown then resetIntegral s else s.

(** The demand and the angular velocity of a call are numbers. *)
Definition finite_input (i : float * float * float) : bool :=
  let '(demand, angularVelocity, _) := i in
  F32.is_finite demand && F32.is_finite angularVelocity.

(** The object after [compute] has run on each input of a list in turn. *)
Fixpoint run (s : t) (inputs : list (float * float * float)) : t :=
  match inputs with
  | [] => s
  | (demand, angularVelocity, itermFactor) :: rest =>
      run (snd (compute s demand angularVelocity itermFactor)) rest
  end.

End AnglePid.

(** ** Sample data *)

Module Examples.

Definition mdl : Model :=
  {| ratePitchrollP := F32.one; ratePitchrollI := F32.one;
     ratePitchrollD := F32.one; yawP := F32.one; yawI := F32.one;
     levelP := F32.one;
     softwareTrimRoll := 5; softwareTrimPitch := -7; softwareTrimYaw := 200 |}.

Definition cfg : StabilizeConfig :=
  {| gyroWindupMax := 16000; angleWindupMax := 10000; bigGyro := 40;
     bigYawDemand := 50 |}.

Definition imu : ImuConfig := {| maxAngleInclination := F32.of_Z 50 |}.

(** An object before [init], with whatever its memory holds. *)
Definition raw : Stabilize.t :=
  {| Stabilize.axisPids := [1; 2; 3]; Stabilize.lastGyro := [4; 5];
     Stabilize.delta1 := [6; 7]; Stabilize.delta2 := [8; 9];
     Stabilize.errorGyroI := [10; 11; 12]; Stabilize.errorAngleI := [13; 14];
     Stabilize.softwareTrim := [0; 0; 0]; Stabilize.board := 8192;
     Stabilize.model := mdl;
     Stabilize.imuConfig := imu; Stabilize.config := cfg |}.

Definition fresh : Stabilize.t := Stabilize.init raw cfg imu mdl.

(** The object after some flight: integrals and derivative history set. *)
Definition flown : Stabilize.t :=
  {| Stabilize.axisPids := [12; -30; 7]; Stabilize.lastGyro := [3; -2];
     Stabilize.delta1 := [1; 1]; Stabilize.delta2 := [-1; 2];
     Stabilize.errorGyroI := [3; -250; 90]; Stabilize.errorAngleI := [700; -40];
     Stabilize.softwareTrim := [5; -7; 200]; Stabilize.board := 4096;
     Stabilize.model := mdl;
     Stabilize.imuConfig := imu; Stabilize.config := cfg |}.

Definition zeros : list Z := [0; 0; 0].
Definition level : list float := [F32.zero; F32.zero; F32.zero].

(** Rolled by ten degrees. *)
Definition tilted : list float := [F32.of_Z 10; F32.zero; F32.zero].

(** Half a turn of roll stick with a fast roll rate, then centred sticks. *)
Definition ticks : list Stabilize.tick :=
  [ {| Stabilize.tick_roll := F32.one_half; Stabilize.tick_pitch := F32.zero;
       Stabilize.tick_yaw := F32.zero; Stabilize.tick_gyro := [60; -3; 2];
       Stabilize.tick_euler := tilted |};
    {| Stabilize.tick_roll := F32.zero; Stabilize.tick_pitch := F32.zero;
       Stabilize.tick_yaw := F32.zero; Stabilize.tick_gyro := [5; 1; 0];
       Stabilize.tick_euler := level |} ].

Definition pid : AnglePid.t := AnglePid.init F32.one F32.one F32.one F32.one.

Definition pid_inputs : list (float * float * float) :=
  [ (F32.of_Z 4, F32.zero, F32.one); (F32.of_Z 4, F32.one_half, F32.one) ].

End Examples.

Arguments Int.wrap : simpl never.
Arguments Int.int16 : simpl never.
Arguments Int.int32 : simpl never.
Arguments F32.mul : simpl never.
Arguments F32.add : simpl never.
Arguments F32.sub : simpl never.
Arguments F32.div : simpl never.
Arguments F32.of_Z : simpl never.
Arguments F32.to_int32 : simpl never.
Arguments F32.to_int16 : simpl never.
Arguments Filter.constrainAbs : simpl never.
Arguments Filter.complementary : simpl never.
Arguments Stabilize.resets : simpl never.
Arguments Stabilize.errorAngle_of : simpl never.
Arguments Stabilize.prop_of : simpl never.
Arguments Stabilize.computePid : simpl never.
Arguments Stabilize.computeLevelPid : simpl never.
Arguments Stabilize.computeITermGyro : simpl never.

(** ** Closed forms of the outputs of [Stabilize::update] *)

Module StabilizeOut.
Import Stabilize.

(** What [computeLevelPid] returns for an axis, from the entries of the
    arrays for that axis: [accG] of [errorGyroI], [lastG] of [lastGyro],
    [d1] and [d2] of [delta1] and [delta2], [trim] of [softwareTrim]. *)
Definition level_value (mdl : Model) (imu : ImuConfig) (cfg : StabilizeConfig)
    (accG lastG d1 d2 trim : Z) (rcCommand : Z) (prop : float)
    (gyroRaw : list Z) (eulerAnglesDegrees : list float) (imuAxis : nat) : Z :=
  let G :=
    F32.to_int32
      (F32.mul
         (F32.of_Z (gyroI_next cfg accG (ratePitchrollP mdl) rcCommand gyroRaw
                      imuAxis))
         (ratePitchrollI mdl)) in
  let PA :=
    F32.to_int32
      (F32.mul (F32.of_Z (errorAngle_of imu rcCommand eulerAnglesDegrees imuAxis))
         (levelP mdl)) in
  let delta := Int.int32 (gyroRaw !!! imuAxis - lastG) in
  let deltaSum := Int.int32 (Int.int32 (d1 + d2) + delta) in
  pid_value (ratePitchrollP mdl)
    (F32.to_int32 (Filter.complementary (F32.of_Z rcCommand) (F32.of_Z PA) prop))
    (F32.to_int32 (F32.mul (F32.of_Z G) prop))
    (F32.to_int32 (F32.mul (F32.of_Z deltaSum) (ratePitchrollD mdl)))
    (gyroRaw !!! imuAxis) trim.

(** The yaw output of [update], from the yaw entries of [errorGyroI] and
    [softwareTrim]. *)
Definition yaw_value (mdl : Model) (cfg : StabilizeConfig) (accG trim : Z)
    (demandYaw : Z) (gyroRaw : list Z) : Z :=
  Int.int16
    (Filter.constrainAbs
       (pid_value (yawP mdl) demandYaw
          (F32.to_int32
             (F32.mul
                (F32.of_Z (gyroI_next cfg accG (yawP mdl) demandYaw gyroRaw
                             AXIS_YAW))
                (yawI mdl)))
          0 (gyroRaw !!! AXIS_YAW) trim)
       (100 + Z.abs demandYaw)).

(** The object [update] leaves, field by field. *)
Definition next (s : t) (demandRoll demandPitch demandYaw : Z)
    (gyroRaw : list Z) (eulerAnglesDegrees : list float) : t :=
  let prop := prop_of demandRoll demandPitch in
  let level rc ax :=
    level_value (model s) (imuConfig s) (config s) (errorGyroI s !!! ax)
      (lastGyro s !!! ax) (delta1 s !!! ax) (delta2 s !!! ax)
      (softwareTrim s !!! ax) rc prop gyroRaw eulerAnglesDegrees ax in
  {| axisPids :=
       [level demandRoll AXIS_ROLL; level demandPitch AXIS_PITCH;
        yaw_value (model s) (config s) (errorGyroI s !!! AXIS_YAW)
          (softwareTrim s !!! AXIS_YAW) demandYaw gyroRaw];
     lastGyro := [gyroRaw !!! AXIS_ROLL; gyroRaw !!! AXIS_PITCH];
     delta1 :=
       [Int.int32 (gyroRaw !!! AXIS_ROLL - lastGyro s !!! AXIS_ROLL);
        Int.int32 (gyroRaw !!! AXIS_PITCH - lastGyro s !!! AXIS_PITCH)];
     delta2 := [delta1 s !!! AXIS_ROLL; delta1 s !!! AXIS_PITCH];
     errorGyroI :=
       [gyroI_next (config s) (errorGyroI s !!! AXIS_ROLL)
          (ratePitchrollP (model s)) demandRoll gyroRaw AXIS_ROLL;
        gyroI_next (config s) (errorGyroI s !!! AXIS_PITCH)
          (ratePitchrollP (model s)) demandPitch gyroRaw AXIS_PITCH;
        gyroI_next (config s) (errorGyroI s !!! AXIS_YAW) (yawP (model s))
          demandYaw gyroRaw AXIS_YAW];
     errorAngleI :=
       [angleI_next (config s) (imuConfig s) (errorAngleI s !!! AXIS_ROLL)
          demandRoll eulerAnglesDegrees AXIS_ROLL;
        angleI_next (config s) (imuConfig s) (errorAngleI s !!! AXIS_PITCH)
          demandPitch eulerAnglesDegrees AXIS_PITCH];
     softwareTrim := softwareTrim s;
     board := board s; model := model s;
     imuConfig := imuConfig s;
     config := config s |}.

End StabilizeOut.

Arguments StabilizeOut.level_value : simpl never.
Arguments StabilizeOut.yaw_value : simpl never.
Arguments Stabilize.gyroI_next : simpl never.
Arguments Stabilize.angleI_next : simpl never.
Arguments Stabilize.pid_value : simpl never.

(** ** The blend of [computeLevelPid], with the blend function left open *)

Module Blend.
Import Stabilize.




End Blend.

(** ** Further notions for the statements *)

Module More.

(** Either zero of binary32. *)
Definition is_zero (f : float) : bool :=
  match f with S754_zero _ => true | _ => false end.

(** Numerical equality of floats ([==] of C++). *)
Definition eqb (x y : float) : bool := SFeqb x y.

(** The entry of a list of readings at [axis] is an [int16_t]. *)
Definition int16_at (axis : nat) (l : list Z) : bool :=
  Int.in_int16 (l !!! axis).

(** The values [AnglePid::compute] returns on each input of a list in turn. *)
Fixpoint outputs (s : AnglePid.t) (inputs : list (float * float * float))
    : list float :=
  match inputs with
  | [] => []
  | (demand, angularVelocity, itermFactor) :: rest =>
      fst (AnglePid.compute s demand angularVelocity itermFactor)
      :: outputs (snd (AnglePid.compute s demand angularVelocity itermFactor))
           rest
  end.

(** The same calls with another [itermFactor]. *)
Definition with_factor (f : float) (inputs : list (float * float * float))
    : list (float * float * float) :=
  map (fun i => let '(demand, angularVelocity, _) := i in
                (demand, angularVelocity, f)) inputs.

(** [f k] holds for every [k] from [0] to [n - 1]. *)
Fixpoint all_below (n : nat) (f : Z -> bool) : bool :=
  match n with
  | O => true
  | S m => f (Z.of_nat m) && all_below m f
  end.

(** What [prop_of] is checked for at the larger stick magnitude [k]: it is
    a number from 0 to 2, 0 only for [k = 0], at most 1 up to [k = 500] and
    1 only there. *)
Definition prop_check (k : Z) : bool :=
  let p := Stabilize.prop_of k 0 in
  F32.is_finite p
  && F32.leb F32.zero p
  && F32.leb p (F32.of_Z 2)
  && Bool.eqb (is_zero p) (k =? 0)
  && Bool.eqb (F32.leb p F32.one) (k <=? 500)
  && Bool.eqb (eqb p F32.one) (k =? 500).

(** The object [s] with [b] for its [board] pointer. *)
Definition with_board (b : Z) (s : Stabilize.t) : Stabilize.t :=
  {| Stabilize.axisPids := Stabilize.axisPids s;
     Stabilize.lastGyro := Stabilize.lastGyro s;
     Stabilize.delta1 := Stabilize.delta1 s;
     Stabilize.delta2 := Stabilize.delta2 s;
     Stabilize.errorGyroI := Stabilize.errorGyroI s;
     Stabilize.errorAngleI := Stabilize.errorAngleI s;
     Stabilize.softwareTrim := Stabilize.softwareTrim s;
     Stabilize.board := b;
     Stabilize.model := Stabilize.model s;
     Stabilize.imuConfig := Stabilize.imuConfig s;
     Stabilize.config := Stabilize.config s |}.

(** What [Stabilize] keeps for a levelled axis (roll or pitch): its rate
    integral, its angle integral, its derivative history and its trim. *)
Definition axis_view (axis : nat) (s : Stabilize.t) : list Z :=
  [Stabilize.errorGyroI s !!! axis; Stabilize.errorAngleI s !!! axis;
   Stabilize.lastGyro s !!! axis; Stabilize.delta1 s !!! axis;
   Stabilize.delta2 s !!! axis; Stabilize.softwareTrim s !!! axis].

(** What [Stabilize] keeps for yaw: its rate integral and its trim. *)
Definition yaw_view (s : Stabilize.t) : list Z :=
  [Stabilize.errorGyroI s !!! AXIS_YAW; Stabilize.softwareTrim s !!! AXIS_YAW].

(** The memory [Stabilize::update] reads is all zero: the rate integrals
    and the derivative history. *)
Definition rest_memory (s : Stabilize.t) : Prop :=
  Stabilize.lastGyro s = [0; 0] /\ Stabilize.delta1 s = [0; 0]
  /\ Stabilize.delta2 s = [0; 0] /\ Stabilize.errorGyroI s = [0; 0; 0].

(** A tick with centred sticks, no rotation and a level attitude. *)
Definition rest_tick : Stabilize.tick :=
  {| Stabilize.tick_roll := F32.zero; Stabilize.tick_pitch := F32.zero;
     Stabilize.tick_yaw := F32.zero; Stabilize.tick_gyro := [0; 0; 0];
     Stabilize.tick_euler := [F32.zero; F32.zero; F32.zero] |}.

End More.

(** ** The inverted mounting of the USFSMAX IMU *)

Module UsfsmaxInverted.

(** What goes out on the serial line: a text, or a number. *)
Inductive serial :=
| Print_text (s : list nat)
| Print_float (x : float)
| Println_float (x : float).

(** The character codes of the three labels: "gx: ", tab "gy: ", tab
    "gz: ". *)
Definition label_gx : list nat := [103; 120; 58; 32]%nat.
Definition label_gy : list nat := [9; 103; 121; 58; 32]%nat.
Definition label_gz : list nat := [9; 103; 122; 58; 32]%nat.

(** [USFSMAX_Inverted::adjustGyrometer]: the three references after the
    call, and what it prints. *)
Definition adjustGyrometer (x y z : float)
    : (float * float * float) * list serial :=
  let z := F32.opp z in
  ((x, y, z),
   [Print_text label_gx; Print_float x; Print_text label_gy; Print_float y;
    Print_text label_gz; Println_float z]).

End UsfsmaxInverted.

(** * Facts *)

(** ** binary32 *)

Module F32Facts.
Import F32.

(** *** Shifting right *)

Lemma iter_pos_invariant {A : Type} (P : A -> Prop) (f : A -> A) :
  (forall x, P x -> P (f x)) -> forall n x, P x -> P (SpecFloat.iter_pos f n x).
Proof.
  intros Hf n. induction n as [n IH|n IH|]; intros x Hx; simpl; auto.
Qed.

Lemma shr_1_nonneg r : 0 <= shr_m r -> 0 <= shr_m (shr_1 r).
Proof.
  destruct r as [m r s]. destruct m as [|[p|p|]|p]; simpl; lia.
Qed.

Lemma shr_1_digits r :
  0 <= shr_m r -> Zdigits2 (shr_m (shr_1 r)) <= Zdigits2 (shr_m r).
Proof.
  destruct r as [m r s]. destruct m as [|[p|p|]|p]; simpl; lia.
Qed.

Lemma shr_nonneg r e n :
  0 <= shr_m r ->
  0 <= shr_m (fst (shr r e n))
  /\ Zdigits2 (shr_m (fst (shr r e n))) <= Zdigits2 (shr_m r)
  /\ e <= snd (shr r e n).
Proof.
  intros H. unfold shr. destruct n as [|p|p]; simpl; try lia.
  split; [|split; [|lia]].
  - apply (iter_pos_invariant (fun x => 0 <= shr_m x)); auto using shr_1_nonneg.
  - apply (iter_pos_invariant
             (fun x => 0 <= shr_m x /\ Zdigits2 (shr_m x) <= Zdigits2 (shr_m r)));
      [|lia].
    intros x [Hx Hd]. split; [apply shr_1_nonneg; auto|].
    pose proof (shr_1_digits x Hx). lia.
Qed.

Lemma shr_m_of_loc m l : shr_m (shr_record_of_loc m l) = m.
Proof. destruct l as [|[]]; reflexivity. Qed.

Lemma shr_fexp_nonneg m e l :
  0 <= m ->
  0 <= shr_m (fst (shr_fexp prec emax m e l))
  /\ Zdigits2 (shr_m (fst (shr_fexp prec emax m e l))) <= Zdigits2 m
  /\ e <= snd (shr_fexp prec emax m e l).
Proof.
  intros H. unfold shr_fexp.
  pose proof (shr_nonneg (shr_record_of_loc m l) e
                (fexp prec emax (Zdigits2 m + e) - e)) as Hs.
  rewrite shr_m_of_loc in Hs. auto.
Qed.

Lemma snd_shr_fexp m e l :
  snd (shr_fexp prec emax m e l) = Z.max e (fexp prec emax (Zdigits2 m + e)).
Proof.
  unfold shr_fexp, shr.
  destruct (fexp prec emax (Zdigits2 m + e) - e) eqn:E; simpl; lia.
Qed.

Lemma digits2_pos_succ p :
  (digits2_pos (Pos.succ p) <= Pos.succ (digits2_pos p))%positive.
Proof.
  induction p as [p IH|p IH|]; simpl; lia.
Qed.

Lemma round_nearest_even_bounds m l :
  0 <= m ->
  0 <= round_nearest_even m l
  /\ Zdigits2 (round_nearest_even m l) <= Zdigits2 m + 1.
Proof.
  intros H.
  assert (Hs : Zdigits2 (m + 1) <= Zdigits2 m + 1).
  { destruct m as [|p|p]; [simpl; lia| |lia].
    replace (Z.pos p + 1) with (Z.pos (Pos.succ p)) by lia.
    simpl. pose proof (digits2_pos_succ p). lia. }
  unfold round_nearest_even.
  destruct l as [|[]]; try destruct (Z.even m); split; lia.
Qed.

(** The rounding of a non-negative mantissa never yields NaN. *)
Lemma binary_round_aux_not_nan s m e l :
  0 <= m -> binary_round_aux prec emax s m e l <> S754_nan.
Proof.
  intros H. unfold binary_round_aux.
  destruct (shr_fexp prec emax m e l) as [r1 e1] eqn:E1.
  pose proof (shr_fexp_nonneg m e l H) as (H1 & _ & _). rewrite E1 in H1. simpl in H1.
  pose proof (round_nearest_even_bounds (shr_m r1) (loc_of_shr_record r1) H1) as [H2 _].
  destruct (shr_fexp prec emax _ e1 loc_Exact) as [r2 e2] eqn:E2.
  pose proof (shr_fexp_nonneg _ e1 loc_Exact H2) as (H3 & _ & _).
  rewrite E2 in H3. simpl in H3.
  destruct (shr_m r2); [discriminate| |lia].
  destruct (_ <=? _); discriminate.
Qed.

(** The exponent of the rounded value: at least the given one, and bounded
    by the number of digits that have to go. *)
Lemma binary_round_aux_exponent s m e l s' m' e' :
  0 <= m ->
  binary_round_aux prec emax s m e l = S754_finite s' m' e' ->
  s' = s /\ e <= e'.
Proof.
  intros H. unfold binary_round_aux.
  destruct (shr_fexp prec emax m e l) as [r1 e1] eqn:E1.
  pose proof (shr_fexp_nonneg m e l H) as (H1 & _ & Hle1). rewrite E1 in H1, Hle1. simpl in H1, Hle1.
  pose proof (round_nearest_even_bounds (shr_m r1) (loc_of_shr_record r1) H1) as [H2 _].
  destruct (shr_fexp prec emax _ e1 loc_Exact) as [r2 e2] eqn:E2.
  pose proof (shr_fexp_nonneg _ e1 loc_Exact H2) as (H3 & _ & Hle2).
  rewrite E2 in H3, Hle2. simpl in H3, Hle2.
  destruct (shr_m r2); [discriminate| |discriminate].
  destruct (_ <=? _); [|discriminate].
  intros [= <- <- <-]. split; [reflexivity|lia].
Qed.

Lemma binary_round_aux_finite s m e l :
  0 <= m -> e <= 0 -> Zdigits2 m <= 40 ->
  is_finite (binary_round_aux prec emax s m e l) = true.
Proof.
  intros H He Hd. unfold binary_round_aux.
  destruct (shr_fexp prec emax m e l) as [r1 e1] eqn:E1.
  pose proof (shr_fexp_nonneg m e l H) as (H1 & Hd1 & _).
  pose proof (snd_shr_fexp m e l) as He1.
  rewrite E1 in H1, Hd1, He1. simpl in H1, Hd1, He1.
  pose proof (round_nearest_even_bounds (shr_m r1) (loc_of_shr_record r1) H1) as [H2 Hd2].
  destruct (shr_fexp prec emax _ e1 loc_Exact) as [r2 e2] eqn:E2.
  pose proof (shr_fexp_nonneg _ e1 loc_Exact H2) as (H3 & _ & _).
  pose proof (snd_shr_fexp (round_nearest_even (shr_m r1) (loc_of_shr_record r1)) e1 loc_Exact) as He2.
  rewrite E2 in H3, He2. simpl in H3, He2.
  destruct (shr_m r2); [reflexivity| |lia].
  assert (Hz : 0 <= Zdigits2 m) by (destruct m; simpl; lia).
  assert (Hz1 : 0 <= Zdigits2 (shr_m r1)) by (destruct (shr_m r1); simpl; lia).
  unfold fexp, emin, prec, emax in *.
  destruct (Z.leb_spec e2 (128 - 24)); [reflexivity|lia].
Qed.

(** *** Canonical mantissas *)

Lemma iter_xO_spec m k :
  Z.pos (Pos.iter xO m k) = Z.pos m * 2 ^ Z.pos k
  /\ Z.pos (digits2_pos (Pos.iter xO m k)) = Z.pos (digits2_pos m) + Z.pos k.
Proof.
  induction k as [|k [IH1 IH2]] using Pos.peano_ind.
  - simpl. lia.
  - rewrite Pos.iter_succ, Pos2Z.inj_succ, Z.pow_succ_r by lia.
    simpl digits2_pos. lia.
Qed.

Lemma digits2_pos_bound m n :
  0 <= n -> Z.pos m < 2 ^ n -> Z.pos (digits2_pos m) <= n.
Proof.
  revert n. induction m as [m IH|m IH|]; intros n Hn H; simpl.
  - assert (n <> 0) by (intros ->; simpl in H; lia).
    specialize (IH (n - 1)).
    replace n with (Z.succ (n - 1)) in H by lia.
    rewrite Z.pow_succ_r in H by lia. lia.
  - assert (n <> 0) by (intros ->; simpl in H; lia).
    specialize (IH (n - 1)).
    replace n with (Z.succ (n - 1)) in H by lia.
    rewrite Z.pow_succ_r in H by lia. lia.
  - assert (n <> 0) by (intros ->; simpl in H; lia). lia.
Qed.


(** *** Integers as floats *)



Lemma binary_round_finite s m :
  Z.pos m <= 2 ^ 31 ->
  is_finite (binary_round prec emax s m 0) = true
  /\ forall s' m' e', binary_round prec emax s m 0 = S754_finite s' m' e' ->
       s' = s /\ -23 <= e'.
Proof.
  intros Hm.
  assert (Hd : Z.pos (digits2_pos m) <= 32) by (apply digits2_pos_bound; lia).
  assert (Hf : fexp prec emax (Z.pos (digits2_pos m) + 0)
               = Z.pos (digits2_pos m) - 24)
    by (unfold fexp, emin, prec, emax; lia).
  unfold binary_round, shl_align. rewrite Hf, Z.sub_0_r.
  destruct (Z.pos (digits2_pos m) - 24) as [|k|k] eqn:Ek.
  - split.
    + apply binary_round_aux_finite; simpl; lia.
    + intros s' m' e' H. apply binary_round_aux_exponent in H; [|lia].
      destruct H. split; [assumption|lia].
  - split.
    + apply binary_round_aux_finite; simpl; lia.
    + intros s' m' e' H. apply binary_round_aux_exponent in H; [|lia].
      destruct H. split; [assumption|lia].
  - destruct (iter_xO_spec m k) as [Hv Hdig]. split.
    + apply binary_round_aux_finite; simpl; lia.
    + intros s' m' e' H. apply binary_round_aux_exponent in H; [|lia].
      destruct H. split; [assumption|lia].
Qed.

(** Every [int32_t] converts to a number, whose exponent is at least -23. *)
Lemma of_Z_finite z : Z.abs z <= 2 ^ 31 -> is_finite (of_Z z) = true.
Proof.
  intros Hz. destruct z as [|p|p]; [reflexivity| |];
    apply binary_round_finite; lia.
Qed.

Lemma of_Z_exponent z s m e :
  Z.abs z <= 2 ^ 31 -> of_Z z = S754_finite s m e -> -23 <= e.
Proof.
  intros Hz H. destruct z as [|p|p]; [discriminate| |];
    apply binary_round_finite in H; lia.
Qed.


(** *** Multiplying by one and by one half *)

Lemma mul_one_r s m e :
  valid (S754_finite s m e) = true ->
  mul (S754_finite s m e) one = S754_finite s m e.
Proof.
  unfold valid, valid_binary, bounded, canonical_mantissa.
  intros H. apply andb_prop in H. destruct H as [Hc He].
  apply Z.eqb_eq in Hc. apply Z.leb_le in He.
  unfold mul, SFmul, one. rewrite xorb_false_r, Pos.mul_comm.
  change (8388608 * m)%positive with (Pos.iter xO m 23).
  destruct (iter_xO_spec m 23) as [_ Hd].
  unfold binary_round_aux, shr_fexp at 1.
  cbn [Zdigits2]. rewrite Hd.
  replace (Z.pos (digits2_pos m) + 23 + (e + -23)) with (Z.pos (digits2_pos m) + e) by lia.
  rewrite Hc. replace (e - (e + -23)) with 23 by lia.
  cbn -[fexp Z.add Z.sub shr_fexp].
  replace (e + -23 + 23) with e by lia.
  unfold shr_fexp. cbn [Zdigits2]. rewrite Hc, Z.sub_diag. cbn.
  destruct (Z.leb_spec e (emax - prec)); [reflexivity|lia].
Qed.

Lemma shr_fexp_down m e l :
  0 <= m -> -124 <= e ->
  shr_fexp prec emax m (e - 1) l
  = (fst (shr_fexp prec emax m e l), snd (shr_fexp prec emax m e l) - 1).
Proof.
  intros Hm He. unfold shr_fexp.
  assert (Hd : 0 <= Zdigits2 m) by (destruct m; simpl; lia).
  replace (fexp prec emax (Zdigits2 m + (e - 1)) - (e - 1))
    with (fexp prec emax (Zdigits2 m + e) - e)
    by (unfold fexp, emin, prec, emax; lia).
  unfold shr. destruct (fexp prec emax (Zdigits2 m + e) - e); simpl; f_equal; lia.
Qed.

(** Within the normal range, lowering the exponent of what is rounded by one
    lowers the exponent of the result by one and leaves its mantissa. *)
Lemma binary_round_aux_down s m e l :
  0 <= m -> -124 <= e ->
  match binary_round_aux prec emax s m e l with
  | S754_finite s' m' e' =>
      binary_round_aux prec emax s m (e - 1) l = S754_finite s' m' (e' - 1)
  | S754_zero s' => binary_round_aux prec emax s m (e - 1) l = S754_zero s'
  | _ => True
  end.
Proof.
  intros Hm He. unfold binary_round_aux.
  rewrite shr_fexp_down by assumption.
  pose proof (shr_fexp_nonneg m e l Hm) as (H1 & _ & Hle1).
  destruct (shr_fexp prec emax m e l) as [r1 e1]. cbn [fst snd] in *.
  pose proof (round_nearest_even_bounds (shr_m r1) (loc_of_shr_record r1) H1) as [H2 _].
  rewrite shr_fexp_down by lia.
  destruct (shr_fexp prec emax _ e1 loc_Exact) as [r2 e2]. cbn [fst snd].
  destruct (shr_m r2); [reflexivity| |exact I].
  destruct (Z.leb_spec e2 (emax - prec)); [|exact I].
  destruct (Z.leb_spec (e2 - 1) (emax - prec)); [reflexivity|lia].
Qed.

Lemma mul_one_half s m e :
  valid (S754_finite s m e) = true -> -101 <= e ->
  mul (S754_finite s m e) one_half = half (S754_finite s m e).
Proof.
  intros Hv He. pose proof (mul_one_r s m e Hv) as H1.
  unfold mul, SFmul, one, one_half in *.
  pose proof (binary_round_aux_down (xorb s false) (Z.pos (m * 8388608)) (e + -23)
                loc_Exact ltac:(lia) ltac:(lia)) as Hd.
  rewrite H1 in Hd. replace (e + -24) with (e + -23 - 1) by lia.
  exact Hd.
Qed.

Lemma trunc_finite s m e :
  trunc (S754_finite s m e)
  = Some (cond_Zopp s (if 0 <=? e then Z.pos m * 2 ^ e else Z.pos m / 2 ^ (- e))).
Proof.
  unfold trunc. destruct e; simpl Z.leb; cbv iota; try reflexivity.
  rewrite Z.pow_0_r, Z.mul_1_r. reflexivity.
Qed.

Lemma trunc_half s m e z :
  trunc (S754_finite s m e) = Some z ->
  trunc (S754_finite s m (e - 1)) = Some (Z.quot z 2).
Proof.
  rewrite !trunc_finite. intros [= <-]. f_equal.
  assert (Hq : forall a, 0 <= a -> cond_Zopp s (a / 2) = cond_Zopp s a ÷ 2).
  { intros a Ha. destruct s; simpl.
    - rewrite Z.quot_opp_l by lia. rewrite Z.quot_div_nonneg by lia. reflexivity.
    - rewrite Z.quot_div_nonneg by lia. reflexivity. }
  destruct (Z.leb_spec 0 e), (Z.leb_spec 0 (e - 1)); try lia.
  - rewrite <- Hq by lia. f_equal.
    replace e with (Z.succ (e - 1)) at 2 by lia.
    rewrite Z.pow_succ_r by lia.
    rewrite (Z.mul_comm 2), Z.mul_assoc, Z.div_mul by lia. reflexivity.
  - assert (e = 0) by lia. subst e. simpl Z.opp.
    rewrite Z.pow_0_r, Z.mul_1_r, Z.pow_1_r. apply Hq. lia.
  - rewrite <- Hq by (apply Z.div_pos; lia). f_equal.
    replace (- (e - 1)) with (Z.succ (- e)) by lia.
    rewrite Z.pow_succ_r by lia.
    rewrite (Z.mul_comm 2), <- Z.div_div by lia. reflexivity.
Qed.

(** *** Casts to integers *)

Lemma to_int32_range f : Int.in_int32 (to_int32 f) = true.
Proof.
  unfold to_int32. destruct (trunc f) as [z|]; [|reflexivity].
  destruct (Int.in_int32 z) eqn:E; [exact E|reflexivity].
Qed.

Lemma in_int32_bounds z : Int.in_int32 z = true <-> - 2 ^ 31 <= z < 2 ^ 31.
Proof. unfold Int.in_int32. rewrite andb_true_iff, Z.leb_le, Z.ltb_lt. tauto. Qed.

Lemma in_int16_bounds z : Int.in_int16 z = true <-> - 2 ^ 15 <= z < 2 ^ 15.
Proof. unfold Int.in_int16. rewrite andb_true_iff, Z.leb_le, Z.ltb_lt. tauto. Qed.

(** A cast whose result is not the out-of-range pattern has truncated a
    number. *)
Lemma to_int32_defined f :
  to_int32 f <> Int.INT32_MIN -> trunc f = Some (to_int32 f).
Proof.
  unfold to_int32. destruct (trunc f) as [z|]; [|congruence].
  destruct (Int.in_int32 z); congruence.
Qed.


(** Halving the second factor of a product with a converted integer halves
    what the cast gives, rounding toward zero. *)
Lemma to_int32_mul_half G p :
  Z.abs G <= 2 ^ 31 ->
  valid p = true ->
  match p with S754_finite _ _ e => -101 <= e | _ => True end ->
  to_int32 (mul (of_Z G) p) <> Int.INT32_MIN ->
  to_int32 (mul (of_Z G) (mul p one_half)) = to_int32 (mul (of_Z G) p) ÷ 2.
Proof.
  intros HG Hv He Hdef.
  destruct p as [sp|sp| |sp mp ep].
  - (* p = 0 *)
    destruct (of_Z G); try reflexivity; exfalso; apply Hdef; reflexivity.
  - (* p infinite *)
    exfalso. apply Hdef. destruct (of_Z G); reflexivity.
  - exfalso. apply Hdef. destruct (of_Z G); reflexivity.
  - rewrite (mul_one_half sp mp ep Hv He). unfold half.
    pose proof (of_Z_exponent G) as Hex.
    destruct (of_Z G) as [sx|sx| |sx mx ex].
    + reflexivity.
    + exfalso. apply Hdef. reflexivity.
    + exfalso. apply Hdef. reflexivity.
    + specialize (Hex sx mx ex HG eq_refl).
      pose proof (binary_round_aux_down (xorb sx sp) (Z.pos (mx * mp)) (ex + ep)
                    loc_Exact ltac:(lia) ltac:(lia)) as Hd.
      unfold mul, SFmul in *.
      replace (ex + (ep - 1)) with (ex + ep - 1) by lia.
      destruct (binary_round_aux prec emax (xorb sx sp) (Z.pos (mx * mp)) (ex + ep) loc_Exact)
        as [sr|sr| |sr mr er] eqn:Er.
      * rewrite Hd. reflexivity.
      * exfalso. apply Hdef. reflexivity.
      * exfalso. apply Hdef. reflexivity.
      * rewrite Hd. pose proof (to_int32_defined _ Hdef) as Ht.
        pose proof (to_int32_range (S754_finite sr mr er)) as Hr.
        apply in_int32_bounds in Hr.
        unfold to_int32 at 1. rewrite (trunc_half _ _ _ _ Ht).
        set (z := to_int32 (S754_finite sr mr er)) in *.
        assert (Hq : Int.in_int32 (z ÷ 2) = true).
        { apply in_int32_bounds.
          pose proof (Z.quot_rem z 2 ltac:(lia)).
          pose proof (Z.rem_bound_abs z 2 ltac:(lia)). lia. }
        rewrite Hq. reflexivity.
Qed.

(** *** Multiplying by zero *)


(** *** Numbers and NaN *)

Lemma binary_normalize_not_nan m e sz :
  is_nan (binary_normalize prec emax m e sz) = false.
Proof.
  destruct m as [|p|p]; simpl; [reflexivity| |];
    unfold binary_round;
    destruct (shl_align p e _) as [mz ez];
    match goal with
    | |- is_nan ?b = false =>
        destruct b eqn:E; try reflexivity;
        exfalso; revert E; apply binary_round_aux_not_nan; lia
    end.
Qed.

Lemma mul_not_nan x y :
  is_finite x = true -> is_finite y = true -> is_nan (mul x y) = false.
Proof.
  destruct x as [sx|sx| |sx mx ex], y as [sy|sy| |sy my ey];
    try discriminate; intros _ _; try reflexivity.
  unfold mul, SFmul.
  match goal with
  | |- is_nan ?b = false =>
      destruct b eqn:E; try reflexivity;
      exfalso; revert E; apply binary_round_aux_not_nan; lia
  end.
Qed.

Lemma sub_not_nan x y :
  is_nan x = false -> is_finite y = true -> is_nan (sub x y) = false.
Proof.
  destruct x as [sx|sx| |sx mx ex], y as [sy|sy| |sy my ey];
    try discriminate; intros _ _; try reflexivity.
  - destruct sx, sy; reflexivity.
  - apply binary_normalize_not_nan.
Qed.

Lemma add_not_nan x y :
  is_finite x = true -> is_nan y = false -> is_nan (add x y) = false.
Proof.
  destruct x as [sx|sx| |sx mx ex], y as [sy|sy| |sy my ey];
    try discriminate; intros _ _; try reflexivity.
  - destruct sx, sy; reflexivity.
  - apply binary_normalize_not_nan.
Qed.

(** *** Comparisons with a positive bound *)

Lemma leb_abs_finite x b : leb (abs x) b = true -> is_finite b = true -> is_finite x = true.
Proof.
  destruct x as [sx|sx| |sx mx ex]; try reflexivity;
    destruct b as [sb|sb| |sb mb eb]; try discriminate.
Qed.

(** *** The rounded value is canonical *)













End F32Facts.

Module FilterFacts.
Import F32 F32Facts.

(** What [constrainAbsF] returns for a number lies within a positive finite
    bound. *)
Lemma constrainAbsF_within v mb eb :
  is_nan v = false ->
  leb (abs (Filter.constrainAbsF v (S754_finite false mb eb)))
    (S754_finite false mb eb) = true.
Proof.
  intros Hv. unfold Filter.constrainAbsF, ltb, leb, SFltb, SFleb, opp, abs.
  assert (Hrefl : SFcompare (S754_finite false mb eb) (S754_finite false mb eb) = Some Eq).
  { simpl. rewrite Z.compare_refl.
    change (Pos.compare_cont Eq mb mb) with (mb ?= mb)%positive.
    rewrite Pos.compare_refl. reflexivity. }
  destruct v as [s|s| |s m e]; try discriminate.
  - simpl. reflexivity.
  - destruct s; simpl; rewrite ?Z.compare_refl;
      change (Pos.compare_cont Eq mb mb) with (mb ?= mb)%positive;
      rewrite ?Pos.compare_refl; reflexivity.
  - destruct s; simpl;
      change (Pos.compare_cont Eq m mb) with (m ?= mb)%positive;
      change (Pos.compare_cont Eq mb m) with (mb ?= m)%positive;
      rewrite ?(Z.compare_antisym e eb), ?(Pos.compare_antisym m mb);
      destruct (e ?= eb) eqn:Ee; simpl;
      rewrite ?Z.compare_refl;
      change (Pos.compare_cont Eq mb mb) with (mb ?= mb)%positive;
      change (Pos.compare_cont Eq m mb) with (m ?= mb)%positive;
      rewrite ?Pos.compare_refl, ?Ee; try reflexivity;
      destruct (m ?= mb)%positive eqn:Em; simpl;
      rewrite ?Z.compare_refl, ?Ee;
      change (Pos.compare_cont Eq mb mb) with (mb ?= mb)%positive;
      change (Pos.compare_cont Eq m mb) with (m ?= mb)%positive;
      rewrite ?Pos.compare_refl, ?Em; reflexivity.
Qed.

End FilterFacts.

(** ** Machine integers *)

Module IntFacts.
Import Int.

Lemma int16_range z : - 2 ^ 15 <= int16 z < 2 ^ 15.
Proof.
  unfold int16, wrap. pose proof (Z.mod_pos_bound (z + 2 ^ (16 - 1)) (2 ^ 16)).
  simpl in *. lia.
Qed.

Lemma int32_range z : - 2 ^ 31 <= int32 z < 2 ^ 31.
Proof.
  unfold int32, wrap. pose proof (Z.mod_pos_bound (z + 2 ^ (32 - 1)) (2 ^ 32)).
  simpl in *. lia.
Qed.

Lemma int16_id z : - 2 ^ 15 <= z < 2 ^ 15 -> int16 z = z.
Proof.
  intros H. unfold int16, wrap. rewrite Z.mod_small; simpl in *; lia.
Qed.

Lemma int32_id z : - 2 ^ 31 <= z < 2 ^ 31 -> int32 z = z.
Proof.
  intros H. unfold int32, wrap. rewrite Z.mod_small; simpl in *; lia.
Qed.

End IntFacts.

(** ** The integer clamp *)

Module ClampFacts.

Lemma constrainAbs_cases val bound :
  0 <= bound ->
  Z.abs (Filter.constrainAbs val bound) <= bound
  /\ (val <= Filter.constrainAbs val bound <= 0
      \/ 0 <= Filter.constrainAbs val bound <= val)
  /\ (Z.abs val <= bound -> Filter.constrainAbs val bound = val).
Proof.
  intros H. unfold Filter.constrainAbs.
  destruct (Z.ltb_spec val (- bound)), (Z.ltb_spec bound val); lia.
Qed.

(** Clamping a 32-bit value to a bound that is not negative gives a 32-bit
    value within the bound. *)
Lemma int32_constrainAbs val bound :
  0 <= bound -> - 2 ^ 31 <= val < 2 ^ 31 ->
  Int.int32 (Filter.constrainAbs val bound) = Filter.constrainAbs val bound
  /\ Z.abs (Filter.constrainAbs val bound) <= bound.
Proof.
  intros Hb Hv. destruct (constrainAbs_cases val bound Hb) as (H1 & H2 & _).
  split; [apply IntFacts.int32_id; lia|assumption].
Qed.

Lemma int16_constrainAbs val bound :
  0 <= bound -> - 2 ^ 15 <= val < 2 ^ 15 ->
  Int.int16 (Filter.constrainAbs val bound) = Filter.constrainAbs val bound
  /\ Z.abs (Filter.constrainAbs val bound) <= bound.
Proof.
  intros Hb Hv. destruct (constrainAbs_cases val bound Hb) as (H1 & H2 & _).
  split; [apply IntFacts.int16_id; lia|assumption].
Qed.

End ClampFacts.

(** ** The stabilisation controller *)

Module StabilizeFacts.
Import Stabilize.

Lemma length2 {A} (l : list A) :
  (length l =? 2)%nat = true -> exists a b, l = [a; b].
Proof.
  destruct l as [|a [|b [|c l]]]; simpl; try discriminate. eauto.
Qed.

Lemma length3 {A} (l : list A) :
  (length l =? 3)%nat = true -> exists a b c, l = [a; b; c].
Proof.
  destruct l as [|a [|b [|c [|d l]]]]; simpl; try discriminate. eauto.
Qed.

(** Turns [wf s = true] into the shapes of the arrays. *)
Ltac shape H :=
  unfold wf in H;
  cbn [axisPids lastGyro delta1 delta2 errorGyroI errorAngleI softwareTrim] in H;
  repeat (apply andb_prop in H; let H' := fresh "Hl" in destruct H as [H H']);
  repeat match goal with
  | H : (length _ =? 3)%nat = true |- _ =>
      apply length3 in H; destruct H as (? & ? & ? & ->)
  | H : (length _ =? 2)%nat = true |- _ =>
      apply length2 in H; destruct H as (? & ? & ->)
  end.

Ltac fields :=
  cbn [set_axisPids set_errorGyroI set_errorAngleI set_lastGyro set_delta1
       set_delta2 set_softwareTrim axisPids lastGyro delta1 delta2 errorGyroI
       errorAngleI softwareTrim board model imuConfig config fst snd].

Lemma axisPids_set_errorAngleI v s :
  axisPids (set_errorAngleI v s) = axisPids s.
Proof. unfold set_errorAngleI. cbn [axisPids]. reflexivity. Qed.

Lemma computePid_value s rateP P I D g ax :
  computePid s rateP P I D g ax
  = pid_value rateP P I D (g !!! ax) (softwareTrim s !!! ax).
Proof. unfold computePid, pid_value. reflexivity. Qed.

Lemma computeITermGyro_eq s rP rI rc g ax :
  computeITermGyro s rP rI rc g ax
  = (F32.to_int32
       (F32.mul
          (F32.of_Z
             (<[ax := gyroI_next (config s) (errorGyroI s !!! ax) rP rc g ax]>
                (errorGyroI s) !!! ax)) rI),
     set_errorGyroI
       (<[ax := gyroI_next (config s) (errorGyroI s !!! ax) rP rc g ax]>
          (errorGyroI s)) s).
Proof.
  unfold computeITermGyro, gyroI_next. fields.
  destruct (resets (config s) rc g ax).
  - unfold set_errorGyroI. cbn. rewrite list_insert_insert_eq. reflexivity.
  - reflexivity.
Qed.

Lemma computeLevelPid_state s rc prop g eu ax :
  snd (computeLevelPid s rc prop g eu ax)
  = {| axisPids := axisPids s;
       lastGyro := <[ax := g !!! ax]> (lastGyro s);
       delta1 := <[ax := Int.int32 (g !!! ax - lastGyro s !!! ax)]> (delta1 s);
       delta2 := <[ax := delta1 s !!! ax]> (delta2 s);
       errorGyroI :=
         <[ax := gyroI_next (config s) (errorGyroI s !!! ax)
                   (ratePitchrollP (model s)) rc g ax]> (errorGyroI s);
       errorAngleI :=
         <[ax := angleI_next (config s) (imuConfig s) (errorAngleI s !!! ax)
                   rc eu ax]> (errorAngleI s);
       softwareTrim := softwareTrim s; board := board s; model := model s;
       imuConfig := imuConfig s; config := config s |}.
Proof.
  unfold computeLevelPid, computeLevelPid_terms.
  rewrite computeITermGyro_eq. cbn. reflexivity.
Qed.

(** The terms of [computeLevelPid], one by one. *)
Lemma terms_of_eq s rc prop g eu ax :
  let G := fst (computeITermGyro s (ratePitchrollP (model s))
                  (ratePitchrollI (model s)) rc g ax) in
  let PA :=
    F32.to_int32
      (F32.mul (F32.of_Z (errorAngle_of (imuConfig s) rc eu ax))
         (levelP (model s))) in
  ITermGyro (terms_of s rc prop g eu ax) = G
  /\ PTermAccel (terms_of s rc prop g eu ax) = PA
  /\ PTerm (terms_of s rc prop g eu ax)
     = F32.to_int32 (Filter.complementary (F32.of_Z rc) (F32.of_Z PA) prop)
  /\ ITerm (terms_of s rc prop g eu ax)
     = F32.to_int32 (F32.mul (F32.of_Z G) prop).
Proof.
  unfold terms_of, computeLevelPid_terms.
  rewrite computeITermGyro_eq. cbn. repeat split.
Qed.

Lemma computeLevelPid_out s rc prop g eu ax :
  (ax < length (errorGyroI s))%nat ->
  fst (computeLevelPid s rc prop g eu ax)
  = let G :=
      F32.to_int32
        (F32.mul
           (F32.of_Z (gyroI_next (config s) (errorGyroI s !!! ax)
                        (ratePitchrollP (model s)) rc g ax))
           (ratePitchrollI (model s))) in
    let PA :=
      F32.to_int32
        (F32.mul (F32.of_Z (errorAngle_of (imuConfig s) rc eu ax))
           (levelP (model s))) in
    let delta := Int.int32 (g !!! ax - lastGyro s !!! ax) in
    let deltaSum :=
      Int.int32 (Int.int32 (delta1 s !!! ax + delta2 s !!! ax) + delta) in
    pid_value (ratePitchrollP (model s))
      (F32.to_int32 (Filter.complementary (F32.of_Z rc) (F32.of_Z PA) prop))
      (F32.to_int32 (F32.mul (F32.of_Z G) prop))
      (F32.to_int32 (F32.mul (F32.of_Z deltaSum) (ratePitchrollD (model s))))
      (g !!! ax) (softwareTrim s !!! ax).
Proof.
  intros Hax.
  unfold computeLevelPid, computeLevelPid_terms.
  rewrite computeITermGyro_eq. cbn.
  rewrite computePid_value. fields.
  rewrite list_lookup_total_insert_eq by assumption. reflexivity.
Qed.

(** [errorAngleI] is carried along and nothing else depends on it. *)
Lemma computeLevelPid_errorAngleI v s rc prop g eu ax :
  computeLevelPid (set_errorAngleI v s) rc prop g eu ax
  = (fst (computeLevelPid s rc prop g eu ax),
     set_errorAngleI
       (<[ax := angleI_next (config s) (imuConfig s) (v !!! ax) rc eu ax]> v)
       (snd (computeLevelPid s rc prop g eu ax))).
Proof.
  rewrite computeLevelPid_state.
  unfold computeLevelPid, computeLevelPid_terms.
  rewrite !computeITermGyro_eq. cbn.
  rewrite !computePid_value. fields. reflexivity.
Qed.

Lemma update_demands_errorAngleI v s dR dP dY g eu :
  exists v', update_demands (set_errorAngleI v s) dR dP dY g eu
             = set_errorAngleI v' (update_demands s dR dP dY g eu).
Proof.
  unfold update_demands.
  rewrite computeLevelPid_errorAngleI.
  destruct (computeLevelPid s dR _ g eu AXIS_ROLL) as [roll s1].
  cbn [fst snd].
  change (set_axisPids (<[AXIS_ROLL:=roll]> (axisPids (set_errorAngleI ?w s1)))
            (set_errorAngleI ?w s1))
    with (set_errorAngleI w (set_axisPids (<[AXIS_ROLL:=roll]> (axisPids s1)) s1)).
  rewrite computeLevelPid_errorAngleI.
  destruct (computeLevelPid _ dP _ g eu AXIS_PITCH) as [pitch s2].
  cbn [fst snd].
  rewrite !computeITermGyro_eq. fields.
  rewrite !computePid_value. fields.
  eexists. unfold set_errorAngleI, set_axisPids. fields. reflexivity.
Qed.

Lemma axisPids_with_board b s : axisPids (More.with_board b s) = axisPids s.
Proof. unfold More.with_board. cbn [axisPids]. reflexivity. Qed.

(** [board] is carried along and nothing depends on it. *)
Lemma computeLevelPid_board b s rc prop g eu ax :
  computeLevelPid (More.with_board b s) rc prop g eu ax
  = (fst (computeLevelPid s rc prop g eu ax),
     More.with_board b (snd (computeLevelPid s rc prop g eu ax))).
Proof.
  rewrite computeLevelPid_state.
  unfold computeLevelPid, computeLevelPid_terms.
  rewrite !computeITermGyro_eq. cbn.
  rewrite !computePid_value. fields. reflexivity.
Qed.

Lemma update_demands_board b s dR dP dY g eu :
  update_demands (More.with_board b s) dR dP dY g eu
  = More.with_board b (update_demands s dR dP dY g eu).
Proof.
  unfold update_demands.
  rewrite computeLevelPid_board.
  destruct (computeLevelPid s dR _ g eu AXIS_ROLL) as [roll s1].
  cbn [fst snd].
  change (set_axisPids
            (<[AXIS_ROLL:=roll]> (axisPids (More.with_board b s1)))
            (More.with_board b s1))
    with (More.with_board b
            (set_axisPids (<[AXIS_ROLL:=roll]> (axisPids s1)) s1)).
  rewrite computeLevelPid_board.
  destruct (computeLevelPid _ dP _ g eu AXIS_PITCH) as [pitch s2].
  cbn [fst snd].
  rewrite !computeITermGyro_eq. fields.
  rewrite !computePid_value. fields.
  unfold More.with_board, set_errorGyroI, set_axisPids. fields. reflexivity.
Qed.

(** Names the result of the next call of [computeLevelPid] in the goal and
    replaces the object it returns by its fields. *)
Ltac step_level :=
  match goal with
  | |- context [computeLevelPid ?s ?rc ?p ?g ?eu ?ax] =>
      let o := fresh "out" in
      let s1 := fresh "s" in
      let E := fresh "E" in
      let Eo := fresh "Eo" in
      destruct (computeLevelPid s rc p g eu ax) as [o s1] eqn:E;
      pose proof (f_equal fst E) as Eo; cbn [fst] in Eo;
      apply (f_equal snd) in E; rewrite computeLevelPid_state in E;
      cbn [snd] in E; subst s1; fields
  end.

Lemma update_demands_accumulators s dR dP dY g eu a b c a' b' :
  errorGyroI s = [a; b; c] -> errorAngleI s = [a'; b'] ->
  errorGyroI (update_demands s dR dP dY g eu)
  = [gyroI_next (config s) a (ratePitchrollP (model s)) dR g AXIS_ROLL;
     gyroI_next (config s) b (ratePitchrollP (model s)) dP g AXIS_PITCH;
     gyroI_next (config s) c (yawP (model s)) dY g AXIS_YAW]
  /\ errorAngleI (update_demands s dR dP dY g eu)
     = [angleI_next (config s) (imuConfig s) a' dR eu AXIS_ROLL;
        angleI_next (config s) (imuConfig s) b' dP eu AXIS_PITCH].
Proof.
  intros HG HA. unfold update_demands.
  step_level. step_level. rewrite computeITermGyro_eq. fields.
  rewrite HG, HA. split; reflexivity.
Qed.

Lemma update_demands_frame s dR dP dY g eu :
  config (update_demands s dR dP dY g eu) = config s
  /\ imuConfig (update_demands s dR dP dY g eu) = imuConfig s
  /\ model (update_demands s dR dP dY g eu) = model s
  /\ softwareTrim (update_demands s dR dP dY g eu) = softwareTrim s.
Proof.
  unfold update_demands.
  step_level. step_level. rewrite computeITermGyro_eq. fields.
  repeat split.
Qed.

Lemma update_demands_wf s dR dP dY g eu :
  wf s = true -> wf (update_demands s dR dP dY g eu) = true.
Proof.
  intros H. unfold update_demands.
  step_level. step_level. rewrite computeITermGyro_eq. fields.
  unfold wf in *. fields. rewrite !length_insert. exact H.
Qed.

(** The yaw output is a clamped 16-bit value. *)
Lemma update_demands_yaw s dR dP dY g eu :
  wf s = true ->
  exists raw,
    axisPids (update_demands s dR dP dY g eu) !!! AXIS_YAW
    = Int.int16 (Filter.constrainAbs (Int.int16 raw) (100 + Z.abs dY)).
Proof.
  intros H. unfold update_demands.
  step_level. step_level. rewrite computeITermGyro_eq. fields.
  destruct s as [ap lg d1 d2 eg ea st bd m ic c]. shape H. fields.
  unfold AXIS_ROLL, AXIS_PITCH, AXIS_YAW.
  cbn [insert list_insert lookup_total list_lookup_total].
  rewrite computePid_value. unfold pid_value at 1. eexists. reflexivity.
Qed.

Lemma gyroI_next_resets cfg acc rateP rc g ax :
  resets cfg rc g ax = true -> gyroI_next cfg acc rateP rc g ax = 0.
Proof. unfold gyroI_next. intros ->. reflexivity. Qed.

Lemma gyroI_next_bound cfg acc rateP rc g ax :
  0 <= gyroWindupMax cfg ->
  Z.abs (gyroI_next cfg acc rateP rc g ax) <= gyroWindupMax cfg.
Proof.
  intros H. unfold gyroI_next. destruct (resets cfg rc g ax); [simpl; lia|].
  match goal with
  | |- context [Filter.constrainAbs ?v ?b] =>
      destruct (ClampFacts.int32_constrainAbs v b H) as [-> Hb];
      [apply IntFacts.int32_range|exact Hb]
  end.
Qed.

Lemma angleI_next_bound cfg imu acc rc eu ax :
  0 <= angleWindupMax cfg ->
  Z.abs (angleI_next cfg imu acc rc eu ax) <= angleWindupMax cfg.
Proof.
  intros H. unfold angleI_next.
  match goal with
  | |- context [Filter.constrainAbs ?v ?b] =>
      destruct (ClampFacts.int32_constrainAbs v b H) as [-> Hb];
      [apply IntFacts.int32_range|exact Hb]
  end.
Qed.

End StabilizeFacts.

(** ** The rate PID controller *)

Module AnglePidFacts.
Import AnglePid.

Ltac fields :=
  cbn [set_errorI set_lastError _bigAngularVelocity _P _I _D _lastError
       _errorI _demandScale fst snd].

(** The accumulator after a call. *)
Lemma compute_errorI p demand av f :
  _errorI (snd (compute p demand av f))
  = if F32.ltb (_bigAngularVelocity p) (F32.abs av) then F32.zero
    else
      Filter.constrainAbsF
        (F32.add (_errorI p) (F32.sub (F32.mul demand (_demandScale p)) av))
        WINDUP_MAX.
Proof.
  unfold compute, compute_terms. fields.
  destruct (F32.ltb (_bigAngularVelocity p) (F32.abs av));
    fields; destruct (F32.ltb F32.zero (_D p)); reflexivity.
Qed.

Lemma compute_frame p demand av f :
  _demandScale (snd (compute p demand av f)) = _demandScale p
  /\ _bigAngularVelocity (snd (compute p demand av f)) = _bigAngularVelocity p
  /\ _P (snd (compute p demand av f)) = _P p
  /\ _I (snd (compute p demand av f)) = _I p
  /\ _D (snd (compute p demand av f)) = _D p.
Proof.
  unfold compute, compute_terms. fields.
  destruct (F32.ltb (_bigAngularVelocity p) (F32.abs av));
    fields; destruct (F32.ltb F32.zero (_D p)); repeat split.
Qed.

(** One call on numbers leaves the accumulator within the windup bound. *)
Lemma compute_within p demand av f :
  F32.is_finite (_errorI p) = true ->
  F32.is_finite (_demandScale p) = true ->
  F32.is_finite demand = true -> F32.is_finite av = true ->
  F32.leb (F32.abs (_errorI (snd (compute p demand av f)))) WINDUP_MAX = true.
Proof.
  intros HI Hs Hd Ha. rewrite compute_errorI.
  destruct (F32.ltb (_bigAngularVelocity p) (F32.abs av)); [reflexivity|].
  apply FilterFacts.constrainAbsF_within.
  apply F32Facts.add_not_nan; [assumption|].
  apply F32Facts.sub_not_nan; [|assumption].
  apply F32Facts.mul_not_nan; assumption.
Qed.

Lemma compute_run_within p inputs :
  F32.is_finite (_errorI p) = true ->
  F32.is_finite (_demandScale p) = true ->
  forallb finite_input inputs = true ->
  inputs <> [] ->
  F32.leb (F32.abs (_errorI (run p inputs))) WINDUP_MAX = true.
Proof.
  revert p. induction inputs as [|[[d av] f] rest IH]; intros p HI Hs Hin Hne;
    [congruence|].
  cbn [forallb finite_input] in Hin.
  apply andb_prop in Hin. destruct Hin as [Hh Hrest].
  apply andb_prop in Hh. destruct Hh as [Hd Ha].
  pose proof (compute_within p d av f HI Hs Hd Ha) as Hw.
  cbn [run]. destruct rest as [|i rest']; [exact Hw|].
  apply IH; try assumption; try discriminate.
  - apply (F32Facts.leb_abs_finite _ _ Hw). reflexivity.
  - destruct (compute_frame p d av f) as [-> _]. exact Hs.
Qed.

End AnglePidFacts.

(** ** Sequences of updates *)

Module RunFacts.
Import Stabilize.

Lemma update_within s rR rP rY g eu :
  wf s = true ->
  0 <= gyroWindupMax (config s) -> 0 <= angleWindupMax (config s) ->
  within_windup (update s rR rP rY g eu).
Proof.
  intros H HW HA. unfold update, within_windup.
  destruct (StabilizeFacts.update_demands_frame s (demand_of rR) (demand_of rP) (demand_of rY) g eu)
    as (-> & _).
  destruct s as [ap lg d1 d2 eg ea st bd m ic c]. StabilizeFacts.shape H.
  match goal with
  | |- context [update_demands ?s ?a ?b ?c ?g ?e] =>
      destruct (StabilizeFacts.update_demands_accumulators s a b c g e
                  _ _ _ _ _ eq_refl eq_refl) as [-> ->]
  end.
  StabilizeFacts.fields. cbn [config] in HW, HA.
  split; intros axis Hax.
  - destruct axis as [|[|[|axis]]]; [| | |lia];
      cbn [lookup_total list_lookup_total];
      apply StabilizeFacts.gyroI_next_bound; assumption.
  - destruct axis as [|[|axis]]; [| |lia];
      cbn [lookup_total list_lookup_total];
      apply StabilizeFacts.angleI_next_bound; assumption.
Qed.

Lemma update_wf s rR rP rY g eu :
  wf s = true -> wf (update s rR rP rY g eu) = true.
Proof. apply StabilizeFacts.update_demands_wf. Qed.

Lemma update_config s rR rP rY g eu :
  config (update s rR rP rY g eu) = config s.
Proof. apply StabilizeFacts.update_demands_frame. Qed.

Lemma update_run_within ticks : forall s i,
  wf s = true ->
  0 <= gyroWindupMax (config s) -> 0 <= angleWindupMax (config s) ->
  within_windup (run s (i :: ticks)) /\ config (run s (i :: ticks)) = config s.
Proof.
  induction ticks as [|j rest IH]; intros s i H HW HA.
  - cbn [run]. split; [apply update_within; assumption|apply update_config].
  - change (run s (i :: j :: rest))
      with (run (update s (tick_roll i) (tick_pitch i) (tick_yaw i)
                   (tick_gyro i) (tick_euler i)) (j :: rest)).
    pose proof (update_config s (tick_roll i) (tick_pitch i) (tick_yaw i)
                  (tick_gyro i) (tick_euler i)) as Hc.
    destruct (IH _ j (update_wf s (tick_roll i) (tick_pitch i) (tick_yaw i)
                        (tick_gyro i) (tick_euler i) H)) as [Hw Hc'];
      rewrite ?Hc; try assumption.
    split; [exact Hw|]. rewrite Hc'. exact Hc.
Qed.

End RunFacts.

(** ** Centred sticks on a level, still craft *)

Module RestFacts.
Import Stabilize.

Lemma to_int32_mul_zero x :
  F32.is_finite x = true -> F32.to_int32 (F32.mul (F32.of_Z 0) x) = 0.
Proof. destruct x; try discriminate; intros _; reflexivity. Qed.

Lemma demand_of_zero : demand_of F32.zero = 0.
Proof. vm_compute. reflexivity. Qed.

Lemma prop_of_zero : prop_of 0 0 = F32.zero.
Proof. vm_compute. reflexivity. Qed.

Lemma complementary_zero :
  F32.to_int32 (Filter.complementary (F32.of_Z 0) (F32.of_Z 0) F32.zero) = 0.
Proof. vm_compute. reflexivity. Qed.

Lemma sane_true mdl imu cfg :
  sane mdl imu cfg = true ->
  F32.is_finite (ratePitchrollP mdl) = true
  /\ F32.is_finite (ratePitchrollI mdl) = true
  /\ F32.is_finite (ratePitchrollD mdl) = true
  /\ F32.is_finite (yawP mdl) = true
  /\ F32.is_finite (yawI mdl) = true
  /\ F32.is_finite (levelP mdl) = true
  /\ 0 <= gyroWindupMax cfg
  /\ 0 <= F32.to_int32 (F32.mul (F32.of_Z 10) (maxAngleInclination imu)).
Proof.
  unfold sane. rewrite !andb_true_iff, !Z.leb_le. tauto.
Qed.

Ltac zeros :=
  repeat first
    [ rewrite Z.sub_0_r | rewrite Z.add_0_l | rewrite Z.add_0_r
    | rewrite Z.mul_0_r | rewrite (IntFacts.int32_id 0) by lia ].

Lemma gyroI_next_zero cfg rateP g ax :
  0 <= gyroWindupMax cfg -> F32.is_finite rateP = true -> g !!! ax = 0 ->
  gyroI_next cfg 0 rateP 0 g ax = 0.
Proof.
  intros HW HP Hg. unfold gyroI_next.
  destruct (resets cfg 0 g ax); [reflexivity|].
  rewrite to_int32_mul_zero, Hg by assumption. zeros.
  destruct (ClampFacts.constrainAbs_cases 0 (gyroWindupMax cfg) HW) as (_ & _ & ->);
    [|simpl; lia]. zeros. reflexivity.
Qed.

Lemma errorAngle_of_zero imu eu ax :
  0 <= F32.to_int32 (F32.mul (F32.of_Z 10) (maxAngleInclination imu)) ->
  eu !!! ax = F32.zero ->
  errorAngle_of imu 0 eu ax = 0.
Proof.
  intros HM He. unfold errorAngle_of. rewrite He. zeros.
  destruct (ClampFacts.constrainAbs_cases 0 _ HM) as (_ & _ & ->);
    [|simpl; lia].
  replace (F32.to_int32 (F32.mul (F32.of_Z 10) F32.zero)) with 0
    by (vm_compute; reflexivity).
  zeros. reflexivity.
Qed.

Lemma pid_value_zero rateP trim :
  F32.is_finite rateP = true -> Int.in_int16 trim = true ->
  pid_value rateP 0 0 0 0 trim = trim.
Proof.
  intros HP Ht. apply F32Facts.in_int16_bounds in Ht.
  unfold pid_value. rewrite to_int32_mul_zero by assumption. zeros.
  rewrite IntFacts.int32_id by lia. apply IntFacts.int16_id. exact Ht.
Qed.

(** With nothing demanded, nothing measured and nothing accumulated, the
    level PID of an axis returns the trim of the axis. *)
Lemma level_out_zero s g eu ax :
  sane (model s) (imuConfig s) (config s) = true ->
  (ax < length (errorGyroI s))%nat ->
  errorGyroI s !!! ax = 0 -> lastGyro s !!! ax = 0 ->
  delta1 s !!! ax = 0 -> delta2 s !!! ax = 0 ->
  g !!! ax = 0 -> eu !!! ax = F32.zero ->
  Int.in_int16 (softwareTrim s !!! ax) = true ->
  fst (computeLevelPid s 0 F32.zero g eu ax) = softwareTrim s !!! ax.
Proof.
  intros Hs Hax HG HL H1 H2 Hg He Ht.
  apply sane_true in Hs.
  destruct Hs as (HrP & HrI & HrD & HyP & HyI & HlP & HW & HM).
  rewrite StabilizeFacts.computeLevelPid_out by assumption. cbn zeta.
  rewrite HG, HL, H1, H2, Hg.
  rewrite gyroI_next_zero by assumption.
  rewrite errorAngle_of_zero by assumption.
  rewrite !to_int32_mul_zero by (assumption || reflexivity).
  rewrite complementary_zero. zeros.
  rewrite ?to_int32_mul_zero by (assumption || reflexivity).
  apply pid_value_zero; assumption.
Qed.

End RestFacts.

(** ** The blend of the level and rate terms *)

Module BlendFacts.
Import Stabilize.

Lemma to_int32_abs f : Z.abs (F32.to_int32 f) <= 2 ^ 31.
Proof.
  pose proof (F32Facts.to_int32_range f) as H.
  apply F32Facts.in_int32_bounds in H. lia.
Qed.







Lemma exponent_ge_finite k p :
  F32.exponent_ge k p = true ->
  match p with S754_finite _ _ e => k <= e | _ => True end.
Proof.
  destruct p; simpl; intros H; [exact I|exact I|exact I|].
  apply Z.leb_le. exact H.
Qed.

End BlendFacts.

(** ** [update] in closed form *)

Module NextFacts.
Import Stabilize StabilizeOut.

Lemma computeLevelPid_value s rc prop g eu ax :
  (ax < length (errorGyroI s))%nat ->
  fst (computeLevelPid s rc prop g eu ax)
  = level_value (model s) (imuConfig s) (config s) (errorGyroI s !!! ax)
      (lastGyro s !!! ax) (delta1 s !!! ax) (delta2 s !!! ax)
      (softwareTrim s !!! ax) rc prop g eu ax.
Proof.
  intros H. rewrite StabilizeFacts.computeLevelPid_out by exact H.
  unfold level_value. reflexivity.
Qed.

Lemma wf_errorGyroI s : wf s = true -> length (errorGyroI s) = 3%nat.
Proof.
  intros H. destruct s. StabilizeFacts.shape H. reflexivity.
Qed.

(** On arrays of the declared lengths [update] leaves [next]. *)
Lemma update_demands_next s dR dP dY g eu :
  wf s = true -> update_demands s dR dP dY g eu = next s dR dP dY g eu.
Proof.
  intros H. pose proof (wf_errorGyroI s H) as Hlen. unfold update_demands.
  StabilizeFacts.step_level.
  rewrite computeLevelPid_value in Eo by (rewrite Hlen; unfold AXIS_ROLL; lia).
  StabilizeFacts.step_level.
  rewrite computeLevelPid_value in Eo0
    by (cbn [errorGyroI set_axisPids]; rewrite length_insert, Hlen;
        unfold AXIS_PITCH; lia).
  cbn [set_axisPids axisPids lastGyro delta1 delta2 errorGyroI errorAngleI
       softwareTrim model imuConfig config] in Eo0.
  rewrite StabilizeFacts.computeITermGyro_eq. StabilizeFacts.fields.
  rewrite StabilizeFacts.computePid_value. StabilizeFacts.fields.
  subst out out0. unfold next, yaw_value.
  destruct s as [ap lg d1 d2 eg ea st bd m ic c]. StabilizeFacts.shape H.
  StabilizeFacts.fields.
  unfold AXIS_ROLL, AXIS_PITCH, AXIS_YAW.
  cbn [insert list_insert lookup_total list_lookup_total].
  reflexivity.
Qed.

Lemma update_next s rR rP rY g eu :
  wf s = true ->
  update s rR rP rY g eu
  = next s (demand_of rR) (demand_of rP) (demand_of rY) g eu.
Proof. apply update_demands_next. Qed.

Lemma next_wf s dR dP dY g eu :
  wf s = true -> wf (next s dR dP dY g eu) = true.
Proof.
  intros H. destruct s. StabilizeFacts.shape H. unfold wf, next.
  reflexivity.
Qed.

Lemma next_lastGyro s dR dP dY g eu :
  lastGyro (next s dR dP dY g eu) = [g !!! AXIS_ROLL; g !!! AXIS_PITCH].
Proof. unfold next. reflexivity. Qed.

Lemma next_delta1 s dR dP dY g eu :
  delta1 (next s dR dP dY g eu)
  = [Int.int32 (g !!! AXIS_ROLL - lastGyro s !!! AXIS_ROLL);
     Int.int32 (g !!! AXIS_PITCH - lastGyro s !!! AXIS_PITCH)].
Proof. unfold next. reflexivity. Qed.

Lemma next_delta2 s dR dP dY g eu :
  delta2 (next s dR dP dY g eu)
  = [delta1 s !!! AXIS_ROLL; delta1 s !!! AXIS_PITCH].
Proof. unfold next. reflexivity. Qed.

Lemma next_frame s dR dP dY g eu :
  config (next s dR dP dY g eu) = config s
  /\ imuConfig (next s dR dP dY g eu) = imuConfig s
  /\ model (next s dR dP dY g eu) = model s
  /\ softwareTrim (next s dR dP dY g eu) = softwareTrim s.
Proof. unfold next. repeat split. Qed.

Lemma next_axisPids s dR dP dY g eu :
  axisPids (next s dR dP dY g eu)
  = [level_value (model s) (imuConfig s) (config s)
       (errorGyroI s !!! AXIS_ROLL) (lastGyro s !!! AXIS_ROLL)
       (delta1 s !!! AXIS_ROLL) (delta2 s !!! AXIS_ROLL)
       (softwareTrim s !!! AXIS_ROLL) dR (prop_of dR dP) g eu AXIS_ROLL;
     level_value (model s) (imuConfig s) (config s)
       (errorGyroI s !!! AXIS_PITCH) (lastGyro s !!! AXIS_PITCH)
       (delta1 s !!! AXIS_PITCH) (delta2 s !!! AXIS_PITCH)
       (softwareTrim s !!! AXIS_PITCH) dP (prop_of dR dP) g eu AXIS_PITCH;
     yaw_value (model s) (config s) (errorGyroI s !!! AXIS_YAW)
       (softwareTrim s !!! AXIS_YAW) dY g].
Proof. unfold next. reflexivity. Qed.

Lemma next_errorGyroI s dR dP dY g eu :
  errorGyroI (next s dR dP dY g eu)
  = [gyroI_next (config s) (errorGyroI s !!! AXIS_ROLL)
       (ratePitchrollP (model s)) dR g AXIS_ROLL;
     gyroI_next (config s) (errorGyroI s !!! AXIS_PITCH)
       (ratePitchrollP (model s)) dP g AXIS_PITCH;
     gyroI_next (config s) (errorGyroI s !!! AXIS_YAW) (yawP (model s))
       dY g AXIS_YAW].
Proof. unfold next. reflexivity. Qed.

(** The D term of a call of [computeLevelPid]. *)
Lemma terms_of_DTerm s rc prop g eu ax :
  DTerm (terms_of s rc prop g eu ax)
  = F32.to_int32
      (F32.mul
         (F32.of_Z
            (Int.int32
               (Int.int32 (delta1 s !!! ax + delta2 s !!! ax)
                + Int.int32 (g !!! ax - lastGyro s !!! ax))))
         (ratePitchrollD (model s))).
Proof.
  unfold terms_of, computeLevelPid_terms.
  rewrite StabilizeFacts.computeITermGyro_eq. cbn. reflexivity.
Qed.

(** Any sequence of updates keeps the shape of the arrays and leaves the
    configuration, the model and the trims alone. *)
Lemma run_frame ticks : forall s,
  wf s = true ->
  wf (run s ticks) = true
  /\ config (run s ticks) = config s
  /\ imuConfig (run s ticks) = imuConfig s
  /\ model (run s ticks) = model s
  /\ softwareTrim (run s ticks) = softwareTrim s.
Proof.
  induction ticks as [|i rest IH]; intros s H; [repeat split; exact H|].
  cbn [run]. rewrite update_next by exact H.
  destruct (next_frame s (demand_of (tick_roll i)) (demand_of (tick_pitch i))
              (demand_of (tick_yaw i)) (tick_gyro i) (tick_euler i))
    as (Hc & Hi & Hm & Ht).
  destruct (IH _ (next_wf s (demand_of (tick_roll i)) (demand_of (tick_pitch i))
                    (demand_of (tick_yaw i)) (tick_gyro i) (tick_euler i) H))
    as (H1 & H2 & H3 & H4 & H5).
  rewrite H2, H3, H4, H5, Hc, Hi, Hm, Ht. repeat split. exact H1.
Qed.

End NextFacts.

Module HistoryFacts.
Import Stabilize StabilizeOut.

Lemma init_eq s cfg imu mdl :
  wf s = true ->
  init s cfg imu mdl
  = {| axisPids := axisPids s; lastGyro := [0; 0]; delta1 := [0; 0];
       delta2 := [0; 0]; errorGyroI := [0; 0; 0]; errorAngleI := [0; 0];
       softwareTrim :=
         [Int.int16 (softwareTrimRoll mdl); Int.int16 (softwareTrimPitch mdl);
          Int.int16 (softwareTrimYaw mdl)];
       board := board s; model := mdl; imuConfig := imu;
       config := cfg |}.
Proof.
  intros H. destruct s as [ap lg d1 d2 eg ea st bd m ic c].
  StabilizeFacts.shape H. reflexivity.
Qed.

Lemma init_wf s cfg imu mdl : wf s = true -> wf (init s cfg imu mdl) = true.
Proof.
  intros H. rewrite init_eq by exact H.
  destruct s as [ap lg d1 d2 eg ea st bd m ic c]. StabilizeFacts.shape H.
  reflexivity.
Qed.

(** [update] does not read [axisPids]. *)
Lemma next_ignores_axisPids s v dR dP dY g eu :
  next (set_axisPids v s) dR dP dY g eu = next s dR dP dY g eu.
Proof. unfold next, set_axisPids. StabilizeFacts.fields. reflexivity. Qed.

Lemma init_set_axisPids s cfg imu mdl :
  wf s = true ->
  init s cfg imu mdl
  = More.with_board (board s)
      (set_axisPids (axisPids s)
         {| axisPids := [0; 0; 0]; lastGyro := [0; 0]; delta1 := [0; 0];
            delta2 := [0; 0]; errorGyroI := [0; 0; 0]; errorAngleI := [0; 0];
            softwareTrim :=
              [Int.int16 (softwareTrimRoll mdl);
               Int.int16 (softwareTrimPitch mdl);
               Int.int16 (softwareTrimYaw mdl)];
            board := 0; model := mdl; imuConfig := imu; config := cfg |}).
Proof. intros H. rewrite init_eq by exact H. reflexivity. Qed.

(** [update] neither reads nor writes [board]. *)
Lemma next_with_board b s dR dP dY g eu :
  next (More.with_board b s) dR dP dY g eu
  = More.with_board b (next s dR dP dY g eu).
Proof. unfold next, More.with_board. StabilizeFacts.fields. reflexivity. Qed.

Lemma wf_with_board b s : wf (More.with_board b s) = wf s.
Proof. reflexivity. Qed.

Lemma with_board_twice b b' s :
  More.with_board b (More.with_board b' s) = More.with_board b s.
Proof. reflexivity. Qed.

Lemma board_with_board b s : board (More.with_board b s) = b.
Proof. reflexivity. Qed.

Lemma run_with_board ticks : forall b s,
  wf s = true ->
  run (More.with_board b s) ticks = More.with_board b (run s ticks).
Proof.
  induction ticks as [|i rest IH]; intros b s H; [reflexivity|].
  cbn [run].
  rewrite !NextFacts.update_next by (rewrite ?wf_with_board; exact H).
  rewrite next_with_board. apply IH. apply NextFacts.next_wf. exact H.
Qed.

Lemma int32_diff a b :
  Int.in_int16 a = true -> Int.in_int16 b = true -> Int.int32 (a - b) = a - b.
Proof.
  intros Ha Hb. apply F32Facts.in_int16_bounds in Ha, Hb.
  apply IntFacts.int32_id. lia.
Qed.

Lemma lookup2 (a b : Z) :
  [a; b] !!! AXIS_ROLL = a /\ [a; b] !!! AXIS_PITCH = b.
Proof. split; reflexivity. Qed.

(** The derivative history after three updates. *)
Lemma run3_history s t1 t2 t3 :
  wf s = true ->
  lastGyro (run s [t1; t2; t3])
  = [tick_gyro t3 !!! AXIS_ROLL; tick_gyro t3 !!! AXIS_PITCH]
  /\ delta1 (run s [t1; t2; t3])
     = [Int.int32 (tick_gyro t3 !!! AXIS_ROLL - tick_gyro t2 !!! AXIS_ROLL);
        Int.int32 (tick_gyro t3 !!! AXIS_PITCH - tick_gyro t2 !!! AXIS_PITCH)]
  /\ delta2 (run s [t1; t2; t3])
     = [Int.int32 (tick_gyro t2 !!! AXIS_ROLL - tick_gyro t1 !!! AXIS_ROLL);
        Int.int32 (tick_gyro t2 !!! AXIS_PITCH - tick_gyro t1 !!! AXIS_PITCH)].
Proof.
  intros H. cbn [run].
  rewrite (NextFacts.update_next s) by exact H.
  rewrite (NextFacts.update_next (next s _ _ _ _ _))
    by (apply NextFacts.next_wf; exact H).
  rewrite (NextFacts.update_next (next _ _ _ _ _ _))
    by (apply NextFacts.next_wf, NextFacts.next_wf; exact H).
  rewrite NextFacts.next_lastGyro, NextFacts.next_delta1, NextFacts.next_delta2.
  rewrite NextFacts.next_lastGyro, NextFacts.next_delta1.
  rewrite NextFacts.next_lastGyro.
  repeat split.
Qed.

Lemma to_int32_mul_of_Z_zero z x :
  Z.abs z <= 2 ^ 31 -> More.is_zero x = true ->
  F32.to_int32 (F32.mul (F32.of_Z z) x) = 0.
Proof.
  intros Hz Hx. pose proof (F32Facts.of_Z_finite z Hz) as Hf.
  destruct x as [sx|sx| |sx mx ex]; try discriminate.
  destruct (F32.of_Z z) as [sy|sy| |sy my ey]; try discriminate; reflexivity.
Qed.

Lemma int32_abs z : Z.abs (Int.int32 z) <= 2 ^ 31.
Proof. pose proof (IntFacts.int32_range z). lia. Qed.

End HistoryFacts.

Module SeparationFacts.
Import Stabilize StabilizeOut.

Lemma gyroI_next_ext cfg acc rateP rc g g' ax :
  g !!! ax = g' !!! ax ->
  gyroI_next cfg acc rateP rc g ax = gyroI_next cfg acc rateP rc g' ax.
Proof. intros H. unfold gyroI_next, resets. rewrite H. reflexivity. Qed.

Lemma errorAngle_of_ext imu rc eu eu' ax :
  eu !!! ax = eu' !!! ax ->
  errorAngle_of imu rc eu ax = errorAngle_of imu rc eu' ax.
Proof. intros H. unfold errorAngle_of. rewrite H. reflexivity. Qed.

Lemma angleI_next_ext cfg imu acc rc eu eu' ax :
  eu !!! ax = eu' !!! ax ->
  angleI_next cfg imu acc rc eu ax = angleI_next cfg imu acc rc eu' ax.
Proof.
  intros H. unfold angleI_next.
  rewrite (errorAngle_of_ext imu rc eu eu' ax H). reflexivity.
Qed.

Lemma level_value_ext mdl imu cfg accG lastG d1 d2 trim rc prop g g' eu eu' ax :
  g !!! ax = g' !!! ax -> eu !!! ax = eu' !!! ax ->
  level_value mdl imu cfg accG lastG d1 d2 trim rc prop g eu ax
  = level_value mdl imu cfg accG lastG d1 d2 trim rc prop g' eu' ax.
Proof.
  intros Hg He. unfold level_value.
  rewrite (gyroI_next_ext cfg accG (ratePitchrollP mdl) rc g g' ax Hg).
  rewrite (errorAngle_of_ext imu rc eu eu' ax He). rewrite Hg. reflexivity.
Qed.

Lemma yaw_value_ext mdl cfg accG trim dY g g' :
  g !!! AXIS_YAW = g' !!! AXIS_YAW ->
  yaw_value mdl cfg accG trim dY g = yaw_value mdl cfg accG trim dY g'.
Proof.
  intros Hg. unfold yaw_value.
  rewrite (gyroI_next_ext cfg accG (yawP mdl) dY g g' AXIS_YAW Hg).
  rewrite Hg. reflexivity.
Qed.

Lemma axis_view_next_roll s dR dP dY g eu :
  More.axis_view AXIS_ROLL (next s dR dP dY g eu)
  = [gyroI_next (config s) (errorGyroI s !!! AXIS_ROLL)
       (ratePitchrollP (model s)) dR g AXIS_ROLL;
     angleI_next (config s) (imuConfig s) (errorAngleI s !!! AXIS_ROLL) dR eu
       AXIS_ROLL;
     g !!! AXIS_ROLL;
     Int.int32 (g !!! AXIS_ROLL - lastGyro s !!! AXIS_ROLL);
     delta1 s !!! AXIS_ROLL; softwareTrim s !!! AXIS_ROLL].
Proof. unfold More.axis_view, next. reflexivity. Qed.

Lemma axis_view_next_pitch s dR dP dY g eu :
  More.axis_view AXIS_PITCH (next s dR dP dY g eu)
  = [gyroI_next (config s) (errorGyroI s !!! AXIS_PITCH)
       (ratePitchrollP (model s)) dP g AXIS_PITCH;
     angleI_next (config s) (imuConfig s) (errorAngleI s !!! AXIS_PITCH) dP eu
       AXIS_PITCH;
     g !!! AXIS_PITCH;
     Int.int32 (g !!! AXIS_PITCH - lastGyro s !!! AXIS_PITCH);
     delta1 s !!! AXIS_PITCH; softwareTrim s !!! AXIS_PITCH].
Proof. unfold More.axis_view, next. reflexivity. Qed.

Lemma yaw_view_next s dR dP dY g eu :
  More.yaw_view (next s dR dP dY g eu)
  = [gyroI_next (config s) (errorGyroI s !!! AXIS_YAW) (yawP (model s)) dY g
       AXIS_YAW;
     softwareTrim s !!! AXIS_YAW].
Proof. unfold More.yaw_view, next. reflexivity. Qed.

Lemma axisPids_next_roll s dR dP dY g eu :
  axisPids (next s dR dP dY g eu) !!! AXIS_ROLL
  = level_value (model s) (imuConfig s) (config s)
      (errorGyroI s !!! AXIS_ROLL) (lastGyro s !!! AXIS_ROLL)
      (delta1 s !!! AXIS_ROLL) (delta2 s !!! AXIS_ROLL)
      (softwareTrim s !!! AXIS_ROLL) dR (prop_of dR dP) g eu AXIS_ROLL.
Proof. unfold next. reflexivity. Qed.

Lemma axisPids_next_pitch s dR dP dY g eu :
  axisPids (next s dR dP dY g eu) !!! AXIS_PITCH
  = level_value (model s) (imuConfig s) (config s)
      (errorGyroI s !!! AXIS_PITCH) (lastGyro s !!! AXIS_PITCH)
      (delta1 s !!! AXIS_PITCH) (delta2 s !!! AXIS_PITCH)
      (softwareTrim s !!! AXIS_PITCH) dP (prop_of dR dP) g eu AXIS_PITCH.
Proof. unfold next. reflexivity. Qed.

Lemma axisPids_next_yaw s dR dP dY g eu :
  axisPids (next s dR dP dY g eu) !!! AXIS_YAW
  = yaw_value (model s) (config s) (errorGyroI s !!! AXIS_YAW)
      (softwareTrim s !!! AXIS_YAW) dY g.
Proof. unfold next. reflexivity. Qed.

End SeparationFacts.

Module PropFacts.
Import Stabilize.

Lemma all_below_spec n f :
  More.all_below n f = true ->
  forall k, 0 <= k < Z.of_nat n -> f k = true.
Proof.
  induction n as [|m IH]; intros H k Hk; [lia|].
  cbn [More.all_below] in H. apply andb_prop in H. destruct H as [Hm Hr].
  destruct (Z.eq_dec k (Z.of_nat m)) as [->|Hne]; [exact Hm|].
  apply IH; [exact Hr|lia].
Qed.

(** Every magnitude a demand in the receiver's range can have, checked one
    by one. *)
Lemma prop_check_all : More.all_below 1001 More.prop_check = true.
Proof. vm_compute. reflexivity. Qed.

Lemma prop_of_max dR dP :
  prop_of dR dP = prop_of (Z.max (Z.abs dR) (Z.abs dP)) 0.
Proof.
  unfold prop_of. do 2 f_equal. change (Z.abs 0) with 0. lia.
Qed.

Lemma prop_check_nominal dR dP :
  Z.abs dR <= 1000 -> Z.abs dP <= 1000 ->
  More.prop_check (Z.max (Z.abs dR) (Z.abs dP)) = true.
Proof.
  intros HR HP. apply (all_below_spec 1001 _ prop_check_all).
  change (Z.of_nat 1001) with 1001. lia.
Qed.

End PropFacts.

Module StillFacts.
Import Stabilize StabilizeOut.

Lemma level_value_zero mdl imu cfg trim g eu ax :
  sane mdl imu cfg = true ->
  g !!! ax = 0 -> eu !!! ax = F32.zero -> Int.in_int16 trim = true ->
  level_value mdl imu cfg 0 0 0 0 trim 0 F32.zero g eu ax = trim.
Proof.
  intros Hs Hg He Ht. apply RestFacts.sane_true in Hs.
  destruct Hs as (HrP & HrI & HrD & HyP & HyI & HlP & HW & HM).
  unfold level_value. cbn zeta. rewrite Hg.
  rewrite RestFacts.gyroI_next_zero by assumption.
  rewrite RestFacts.errorAngle_of_zero by assumption.
  rewrite !RestFacts.to_int32_mul_zero by (assumption || reflexivity).
  rewrite RestFacts.complementary_zero. RestFacts.zeros.
  rewrite ?RestFacts.to_int32_mul_zero by (assumption || reflexivity).
  apply RestFacts.pid_value_zero; assumption.
Qed.

Lemma yaw_value_zero mdl imu cfg trim g :
  sane mdl imu cfg = true ->
  g !!! AXIS_YAW = 0 -> Int.in_int16 trim = true ->
  yaw_value mdl cfg 0 trim 0 g = Filter.constrainAbs trim 100.
Proof.
  intros Hs Hg Ht. apply RestFacts.sane_true in Hs.
  destruct Hs as (HrP & HrI & HrD & HyP & HyI & HlP & HW & HM).
  unfold yaw_value. rewrite Hg.
  rewrite RestFacts.gyroI_next_zero by assumption.
  rewrite RestFacts.to_int32_mul_zero by assumption.
  rewrite RestFacts.pid_value_zero by assumption.
  change (Z.abs 0) with 0. rewrite Z.add_0_r.
  apply F32Facts.in_int16_bounds in Ht.
  destruct (ClampFacts.int16_constrainAbs trim 100 ltac:(lia) Ht) as [-> _].
  reflexivity.
Qed.

(** One update at rest. *)
Lemma rest_step s tR tP tY :
  wf s = true ->
  sane (model s) (imuConfig s) (config s) = true ->
  More.rest_memory s ->
  softwareTrim s = [tR; tP; tY] ->
  Int.in_int16 tR && Int.in_int16 tP && Int.in_int16 tY = true ->
  let s' :=
    update s F32.zero F32.zero F32.zero [0; 0; 0]
      [F32.zero; F32.zero; F32.zero] in
  More.rest_memory s'
  /\ axisPids s' = [tR; tP; Filter.constrainAbs tY 100].
Proof.
  intros H Hs (HL & H1 & H2 & HG) HT Ht s'. subst s'.
  apply andb_prop in Ht. destruct Ht as [Ht HtY].
  apply andb_prop in Ht. destruct Ht as [HtR HtP].
  pose proof (RestFacts.sane_true _ _ _ Hs)
    as (HrP & HrI & HrD & HyP & HyI & HlP & HW & HM).
  rewrite NextFacts.update_next by exact H.
  rewrite RestFacts.demand_of_zero.
  unfold More.rest_memory.
  rewrite NextFacts.next_lastGyro, NextFacts.next_delta1, NextFacts.next_delta2,
    NextFacts.next_errorGyroI, NextFacts.next_axisPids.
  rewrite RestFacts.prop_of_zero.
  rewrite HL, H1, H2, HG, HT.
  unfold AXIS_ROLL, AXIS_PITCH, AXIS_YAW.
  cbn [lookup_total list_lookup_total].
  rewrite !RestFacts.gyroI_next_zero by (assumption || reflexivity).
  rewrite !level_value_zero by (assumption || reflexivity).
  rewrite (yaw_value_zero _ (imuConfig s)) by (assumption || reflexivity).
  repeat split.
Qed.

Lemma repeat_S (x : tick) n : repeat x (S n) = x :: repeat x n.
Proof. reflexivity. Qed.

Lemma run_nil s : run s (repeat More.rest_tick 0) = s.
Proof. reflexivity. Qed.

Lemma run_rest_tick s l :
  run s (More.rest_tick :: l)
  = run (update s F32.zero F32.zero F32.zero [0; 0; 0]
           [F32.zero; F32.zero; F32.zero]) l.
Proof. reflexivity. Qed.

Lemma update_frame s rR rP rY g eu :
  wf s = true ->
  wf (update s rR rP rY g eu) = true
  /\ config (update s rR rP rY g eu) = config s
  /\ imuConfig (update s rR rP rY g eu) = imuConfig s
  /\ model (update s rR rP rY g eu) = model s
  /\ softwareTrim (update s rR rP rY g eu) = softwareTrim s.
Proof.
  intros H. rewrite NextFacts.update_next by exact H.
  split; [apply NextFacts.next_wf; exact H|apply NextFacts.next_frame].
Qed.

End StillFacts.

Module IntegralFacts.
Import Stabilize.

Lemma lookup_total_insert_Z (l : list Z) i v :
  (i < length l)%nat -> <[i := v]> l !!! i = v.
Proof. intros H. apply list_lookup_total_insert_eq. exact H. Qed.

Lemma computeITermGyro_errorGyroI s rP rI rc g ax :
  (ax < length (errorGyroI s))%nat ->
  errorGyroI (snd (computeITermGyro s rP rI rc g ax)) !!! ax
  = gyroI_next (config s) (errorGyroI s !!! ax) rP rc g ax
  /\ fst (computeITermGyro s rP rI rc g ax)
     = F32.to_int32
         (F32.mul
            (F32.of_Z (gyroI_next (config s) (errorGyroI s !!! ax) rP rc g ax))
            rI).
Proof.
  intros H. rewrite StabilizeFacts.computeITermGyro_eq. StabilizeFacts.fields.
  rewrite lookup_total_insert_Z by exact H. split; reflexivity.
Qed.

Lemma resetIntegral_fields s :
  lastGyro (resetIntegral s) = lastGyro s
  /\ delta1 (resetIntegral s) = delta1 s
  /\ delta2 (resetIntegral s) = delta2 s
  /\ model (resetIntegral s) = model s
  /\ imuConfig (resetIntegral s) = imuConfig s
  /\ config (resetIntegral s) = config s.
Proof. unfold resetIntegral. StabilizeFacts.fields. repeat split. Qed.

End IntegralFacts.

Module RateFacts.
Import AnglePid.

Lemma eqb_refl x : F32.is_nan x = false -> More.eqb x x = true.
Proof.
  destruct x as [s|s| |s m e]; try discriminate; intros _;
    unfold More.eqb, SFeqb, SFcompare.
  - reflexivity.
  - destruct s; reflexivity.
  - destruct s; rewrite Z.compare_refl, Pos.compare_refl; reflexivity.
Qed.

(** Adding zeros changes no number. *)
Lemma add_zeros_eqb x z :
  F32.is_nan x = false -> More.is_zero z = true ->
  More.eqb (F32.add (F32.add x z) F32.zero) x = true.
Proof.
  intros Hx Hz. destruct z as [sz|sz| |sz mz ez]; try discriminate.
  destruct x as [s|s| |s m e]; try discriminate.
  - destruct s, sz; reflexivity.
  - destruct s; reflexivity.
  - change (F32.add (F32.add (S754_finite s m e) (S754_zero sz)) F32.zero)
      with (S754_finite s m e).
    apply eqb_refl. reflexivity.
Qed.

Lemma mul_is_zero x y :
  F32.is_finite x = true -> More.is_zero y = true ->
  More.is_zero (F32.mul x y) = true.
Proof.
  destruct x as [s|s| |s m e], y as [sy|sy| |sy my ey]; try discriminate;
    reflexivity.
Qed.

Lemma zero_mul_is_zero y :
  F32.is_finite y = true -> More.is_zero (F32.mul F32.zero y) = true.
Proof. destruct y as [sy|sy| |sy my ey]; try discriminate; reflexivity. Qed.

Lemma constrainAbsF_finite v :
  F32.is_nan v = false ->
  F32.is_finite (Filter.constrainAbsF v WINDUP_MAX) = true.
Proof.
  intros Hv. unfold Filter.constrainAbsF.
  destruct (F32.ltb v (F32.opp WINDUP_MAX)) eqn:E1; [reflexivity|].
  destruct (F32.ltb WINDUP_MAX v) eqn:E2; [reflexivity|].
  destruct v as [s|s| |s m e]; try discriminate; try reflexivity.
  destruct s; [vm_compute in E1|vm_compute in E2]; discriminate.
Qed.

(** The value and the object [compute] returns, written out. *)
Lemma compute_eq p demand av f :
  compute p demand av f
  = let error := F32.sub (F32.mul demand (_demandScale p)) av in
    let acc :=
      if F32.ltb (_bigAngularVelocity p) (F32.abs av) then F32.zero
      else Filter.constrainAbsF (F32.add (_errorI p) error) WINDUP_MAX in
    (F32.add (F32.add (F32.mul error (_P p)) (F32.mul acc (_I p))) F32.zero,
     {| _bigAngularVelocity := _bigAngularVelocity p; _P := _P p; _I := _I p;
        _D := _D p;
        _lastError := if F32.ltb F32.zero (_D p) then error else _lastError p;
        _errorI := acc; _demandScale := _demandScale p |}).
Proof.
  unfold compute, compute_terms. AnglePidFacts.fields.
  destruct (F32.ltb (_bigAngularVelocity p) (F32.abs av));
    AnglePidFacts.fields; destruct (F32.ltb F32.zero (_D p)); reflexivity.
Qed.

Lemma run_cons p demand av f rest :
  run p ((demand, av, f) :: rest) = run (snd (compute p demand av f)) rest.
Proof. reflexivity. Qed.

End RateFacts.

(** * The claims *)

(** C1.  After any update every integral accumulator is within its windup
    bound, the bounds being non-negative: in [Stabilize], after any
    non-empty sequence of updates from any object, each [errorGyroI] is
    within [gyroWindupMax] and each [errorAngleI] within [angleWindupMax];
    in [AnglePid], after any non-empty sequence of calls of [compute] on
    numbers (no infinity, no NaN), [_errorI] is within [WINDUP_MAX]. *)
Theorem windup_bounds_hold :
  (forall (s : Stabilize.t) (i : Stabilize.tick) (ticks : list Stabilize.tick),
      Stabilize.wf s = true ->
      0 <= gyroWindupMax (Stabilize.config s) ->
      0 <= angleWindupMax (Stabilize.config s) ->
      Stabilize.within_windup (Stabilize.run s (i :: ticks))
      /\ Stabilize.config (Stabilize.run s (i :: ticks)) = Stabilize.config s)
  /\ (forall (p : AnglePid.t) (i : float * float * float)
        (inputs : list (float * float * float)),
        F32.is_finite (AnglePid._errorI p) = true ->
        F32.is_finite (AnglePid._demandScale p) = true ->
        forallb AnglePid.finite_input (i :: inputs) = true ->
        F32.leb (F32.abs (AnglePid._errorI (AnglePid.run p (i :: inputs))))
          AnglePid.WINDUP_MAX = true).
Proof.
  split.
  - intros s i ticks H HW HA. apply RunFacts.update_run_within; assumption.
  - intros p i inputs HI Hs Hin.
    apply AnglePidFacts.compute_run_within; try assumption. discriminate.
Qed.

Lemma windup_bounds_hold_witness :
  Stabilize.within_windup (Stabilize.run Examples.flown Examples.ticks)
  /\ F32.leb
       (F32.abs (AnglePid._errorI (AnglePid.run Examples.pid Examples.pid_inputs)))
       AnglePid.WINDUP_MAX = true.
Proof.
  split.
  - apply (proj1 windup_bounds_hold Examples.flown); [reflexivity| |];
      vm_compute; discriminate.
  - apply (proj2 windup_bounds_hold Examples.pid); reflexivity.
Defined.

(** C2.  A big rate resets the rate integral.  In [Stabilize], if the
    magnitude of the gyro reading of an axis exceeds [bigGyro], or, for yaw
    only, the magnitude of the yaw demand exceeds [bigYawDemand], then
    [errorGyroI] of that axis is zero after the update.  In [AnglePid], if
    the magnitude of the angular velocity exceeds [_bigAngularVelocity],
    which [init] sets to 40 degrees per second in radians, then [_errorI] is
    zero after the call. *)
Theorem big_rate_resets_integral :
  (forall (s : Stabilize.t) (rcCommandRoll rcCommandPitch rcCommandYaw : float)
      (gyroRaw : list Z) (eulerAnglesDegrees : list float) (axis : nat),
      Stabilize.wf s = true ->
      (axis < 3)%nat ->
      bigGyro (Stabilize.config s) < Z.abs (gyroRaw !!! axis)
      \/ (axis = AXIS_YAW
          /\ bigYawDemand (Stabilize.config s)
             < Z.abs (Stabilize.demand_of rcCommandYaw)) ->
      Stabilize.errorGyroI
        (Stabilize.update s rcCommandRoll rcCommandPitch rcCommandYaw gyroRaw
           eulerAnglesDegrees) !!! axis = 0)
  /\ (forall (p : AnglePid.t) (demand angularVelocity itermFactor : float),
        F32.ltb (AnglePid._bigAngularVelocity p) (F32.abs angularVelocity) = true ->
        AnglePid._errorI
          (snd (AnglePid.compute p demand angularVelocity itermFactor))
        = F32.zero)
  /\ (forall P I D demandScale : float,
        AnglePid._bigAngularVelocity (AnglePid.init P I D demandScale)
        = Filter.deg2rad (F32.of_Z 40)).
Proof.
  split; [|split].
  - intros s rR rP rY g eu axis H Hax Hbig. unfold Stabilize.update.
    destruct s as [ap lg d1 d2 eg ea st bd m ic c]. StabilizeFacts.shape H.
    match goal with
    | |- context [Stabilize.update_demands ?s ?a ?b ?c ?g ?e] =>
        destruct (StabilizeFacts.update_demands_accumulators s a b c g e
                    _ _ _ _ _ eq_refl eq_refl) as [-> _]
    end.
    StabilizeFacts.fields. cbn [Stabilize.config] in Hbig.
    assert (Hr : forall rc,
               (axis = AXIS_YAW -> rc = Stabilize.demand_of rY) ->
               Stabilize.resets c rc g axis = true).
    { intros rc Hrc. unfold Stabilize.resets. apply orb_true_iff.
      destruct Hbig as [Hg|[Hy Hd]].
      - left. apply Z.ltb_lt. exact Hg.
      - right. rewrite (Hrc Hy). subst axis. apply andb_true_iff.
        split; [reflexivity|apply Z.ltb_lt; exact Hd]. }
    destruct axis as [|[|[|axis]]]; [| | |lia];
      cbn [lookup_total list_lookup_total];
      apply StabilizeFacts.gyroI_next_resets, Hr;
      unfold AXIS_YAW; first [discriminate|reflexivity].
  - intros p demand av f H. rewrite AnglePidFacts.compute_errorI, H. reflexivity.
  - intros P I D sc. reflexivity.
Qed.

Lemma big_rate_resets_integral_witness :
  Stabilize.errorGyroI
    (Stabilize.update Examples.flown F32.one_half F32.zero F32.zero [60; -3; 2]
       Examples.tilted) !!! AXIS_ROLL = 0.
Proof.
  apply (proj1 big_rate_resets_integral Examples.flown);
    [reflexivity|unfold AXIS_ROLL; lia|left; vm_compute; reflexivity].
Defined.




(** C4.  After [update] the yaw output is the clamp to 100 + |demandYaw| of
    a 16-bit value, [demandYaw] being the integer yaw demand of the tick: its
    magnitude is at most 100 + |demandYaw|, a bound that is never less
    than 100. *)
Theorem yaw_output_bounded :
  forall (s : Stabilize.t) (rcCommandRoll rcCommandPitch rcCommandYaw : float)
    (gyroRaw : list Z) (eulerAnglesDegrees : list float),
    Stabilize.wf s = true ->
    let demandYaw := Stabilize.demand_of rcCommandYaw in
    let yaw :=
      Stabilize.axisPids
        (Stabilize.update s rcCommandRoll rcCommandPitch rcCommandYaw gyroRaw
           eulerAnglesDegrees) !!! AXIS_YAW in
    Z.abs yaw <= 100 + Z.abs demandYaw
    /\ 100 <= 100 + Z.abs demandYaw
    /\ exists raw : Z,
         Int.in_int16 raw = true
         /\ yaw = Filter.constrainAbs raw (100 + Z.abs demandYaw).
Proof.
  intros s rR rP rY g eu H demandYaw yaw. subst yaw demandYaw.
  unfold Stabilize.update.
  destruct (StabilizeFacts.update_demands_yaw s (Stabilize.demand_of rR)
              (Stabilize.demand_of rP) (Stabilize.demand_of rY) g eu H)
    as [raw ->].
  pose proof (IntFacts.int16_range raw) as Hr.
  destruct (ClampFacts.int16_constrainAbs (Int.int16 raw)
              (100 + Z.abs (Stabilize.demand_of rY)) ltac:(lia) Hr) as [-> Hb].
  split; [exact Hb|]. split; [lia|].
  exists (Int.int16 raw). split; [|reflexivity].
  apply F32Facts.in_int16_bounds. exact Hr.
Qed.

Lemma yaw_output_bounded_witness :
  Z.abs
    (Stabilize.axisPids
       (Stabilize.update Examples.fresh F32.zero F32.zero F32.zero
          Examples.zeros Examples.level) !!! AXIS_YAW)
  <= 100 + Z.abs (Stabilize.demand_of F32.zero).
Proof.
  apply (yaw_output_bounded Examples.fresh F32.zero F32.zero F32.zero
           Examples.zeros Examples.level).
  reflexivity.
Defined.

(** C5 does not hold as stated: with a rate-integral term of 3 the I
    contribution is 3 at proportion 1 and 1 at proportion one half, which is
    neither 3 times one half nor half of 3. *)
Lemma ITerm_halves_counterexample :
  let T1 :=
    Stabilize.terms_of Examples.flown 0 F32.one Examples.zeros Examples.level
      AXIS_ROLL in
  let Th :=
    Stabilize.terms_of Examples.flown 0 F32.one_half Examples.zeros
      Examples.level AXIS_ROLL in
  Stabilize.ITermGyro T1 = 3 /\ Stabilize.ITermGyro Th = 3
  /\ Stabilize.ITerm T1 = 3 /\ Stabilize.ITerm Th = 1
  /\ 2 * Stabilize.ITerm Th <> Stabilize.ITerm T1.
Proof.
  vm_compute. repeat split; discriminate.
Qed.

(** C5, amended.  The I contribution of the rate loop is the product of
    [ITermGyro], which does not depend on [prop], and [prop], computed in
    [float] and truncated toward zero to an integer.  Halving [prop] (a
    canonical float, away from underflow) halves the contribution and
    truncates it toward zero again, provided the cast at [prop] was in
    range. *)
Theorem ITerm_halves_with_prop :
  forall (s : Stabilize.t) (rcCommand : Z) (prop : float) (gyroRaw : list Z)
    (eulerAnglesDegrees : list float) (imuAxis : nat),
    F32.valid prop = true ->
    F32.exponent_ge (-101) prop = true ->
    let T := Stabilize.terms_of s rcCommand prop gyroRaw eulerAnglesDegrees imuAxis in
    let Th :=
      Stabilize.terms_of s rcCommand (F32.mul prop F32.one_half) gyroRaw
        eulerAnglesDegrees imuAxis in
    Stabilize.ITerm T <> Int.INT32_MIN ->
    Stabilize.ITermGyro Th = Stabilize.ITermGyro T
    /\ Stabilize.ITerm T
       = F32.to_int32 (F32.mul (F32.of_Z (Stabilize.ITermGyro T)) prop)
    /\ Stabilize.ITerm Th = Stabilize.ITerm T ÷ 2.
Proof.
  intros s rc prop g eu ax Hv He T Th. subst T Th.
  destruct (StabilizeFacts.terms_of_eq s rc prop g eu ax) as (HG & _ & _ & HI).
  destruct (StabilizeFacts.terms_of_eq s rc (F32.mul prop F32.one_half) g eu ax)
    as (HG' & _ & _ & HI').
  cbn zeta in HG, HI, HG', HI'.
  rewrite HG', HI', HI, HG. intros Hdef.
  split; [reflexivity|]. split; [reflexivity|].
  apply F32Facts.to_int32_mul_half; try assumption.
  - rewrite StabilizeFacts.computeITermGyro_eq. cbn [fst].
    apply BlendFacts.to_int32_abs.
  - apply BlendFacts.exponent_ge_finite. exact He.
Qed.

Lemma ITerm_halves_with_prop_witness :
  Stabilize.ITerm
    (Stabilize.terms_of Examples.flown 0 (F32.mul F32.one F32.one_half)
       Examples.zeros Examples.level AXIS_ROLL)
  = Stabilize.ITerm
      (Stabilize.terms_of Examples.flown 0 F32.one Examples.zeros Examples.level
         AXIS_ROLL) ÷ 2.
Proof.
  apply (ITerm_halves_with_prop Examples.flown 0 F32.one Examples.zeros
           Examples.level AXIS_ROLL);
    [reflexivity|reflexivity|vm_compute; discriminate].
Defined.

(** C6.  [compute] returns P-term + I-term + D-term, but its D-term is
    zero on every call: the gain [_D] only decides whether [_lastError] is
    stored.  With all gains 1, from the initial object, a demand of 1 at zero
    angular velocity changes the error from 0 to 1 and the value returned is
    still P-term + I-term. *)
Theorem compute_dterm_is_zero :
  (forall (p : AnglePid.t) (demand angularVelocity itermFactor : float),
      let tm :=
        fst (AnglePid.compute_terms p demand angularVelocity itermFactor) in
      AnglePid.dterm tm = F32.zero
      /\ fst (AnglePid.compute p demand angularVelocity itermFactor)
         = F32.add (F32.add (AnglePid.pterm tm) (AnglePid.iterm tm))
             (AnglePid.dterm tm))
  /\ (let p := Examples.pid in
      let tm := fst (AnglePid.compute_terms p F32.one F32.zero F32.one) in
      let p' := snd (AnglePid.compute p F32.one F32.zero F32.one) in
      F32.ltb F32.zero (AnglePid._D p) = true
      /\ AnglePid._lastError p = F32.zero
      /\ AnglePid._lastError p' = F32.one
      /\ fst (AnglePid.compute p F32.one F32.zero F32.one)
         = F32.add (AnglePid.pterm tm) (AnglePid.iterm tm)).
Proof.
  split.
  - intros p demand av f tm. subst tm.
    unfold AnglePid.compute, AnglePid.compute_terms. AnglePidFacts.fields.
    destruct (F32.ltb (AnglePid._bigAngularVelocity p) (F32.abs av));
      AnglePidFacts.fields;
      destruct (F32.ltb F32.zero (AnglePid._D p)); split; reflexivity.
  - vm_compute. repeat split.
Qed.

(** C7 does not hold as stated: with a yaw trim of 200 the yaw output of
    the first update at rest is 100, the bound of the yaw clamp. *)
Lemma rest_outputs_counterexample :
  Stabilize.axisPids
    (Stabilize.update Examples.fresh F32.zero F32.zero F32.zero Examples.zeros
       Examples.level) !!! AXIS_YAW = 100
  /\ Stabilize.softwareTrim Examples.fresh !!! AXIS_YAW = 200
  /\ Stabilize.axisPids
       (Stabilize.update Examples.fresh F32.zero F32.zero F32.zero
          Examples.zeros Examples.level)
     <> Stabilize.softwareTrim Examples.fresh.
Proof.
  vm_compute. repeat split. discriminate.
Qed.

(** C7, amended.  From an object whose rate integrals and derivative
    history are zero, under a configuration with finite gains and
    non-negative gyro windup bound and inclination limit, one update with
    zero demands, zero gyro readings and zero Euler angles gives the roll
    and pitch trims exactly on roll and pitch, and on yaw the yaw trim
    clamped to 100 in magnitude. *)
Theorem rest_outputs_are_clamped_trims :
  forall (s : Stabilize.t) (trimRoll trimPitch trimYaw : Z),
    Stabilize.wf s = true ->
    Stabilize.sane (Stabilize.model s) (Stabilize.imuConfig s)
      (Stabilize.config s) = true ->
    Stabilize.lastGyro s = [0; 0] ->
    Stabilize.delta1 s = [0; 0] ->
    Stabilize.delta2 s = [0; 0] ->
    Stabilize.errorGyroI s = [0; 0; 0] ->
    Stabilize.softwareTrim s = [trimRoll; trimPitch; trimYaw] ->
    Int.in_int16 trimRoll && Int.in_int16 trimPitch && Int.in_int16 trimYaw
    = true ->
    Stabilize.axisPids
      (Stabilize.update s F32.zero F32.zero F32.zero [0; 0; 0]
         [F32.zero; F32.zero; F32.zero])
    = [trimRoll; trimPitch; Filter.constrainAbs trimYaw 100]
    /\ (Z.abs trimYaw <= 100 -> Filter.constrainAbs trimYaw 100 = trimYaw).
Proof.
  intros s tR tP tY H Hs HL H1 H2 HG HT Ht.
  apply andb_prop in Ht. destruct Ht as [Ht HtY].
  apply andb_prop in Ht. destruct Ht as [HtR HtP].
  split; [|apply (ClampFacts.constrainAbs_cases tY 100); lia].
  pose proof (RestFacts.sane_true _ _ _ Hs)
    as (HrP & HrI & HrD & HyP & HyI & HlP & HW & HM).
  unfold Stabilize.update. rewrite RestFacts.demand_of_zero.
  unfold Stabilize.update_demands. rewrite RestFacts.prop_of_zero.
  destruct s as [ap lg d1 d2 eg ea st bd m ic c]. StabilizeFacts.shape H.
  cbn [Stabilize.lastGyro Stabilize.delta1 Stabilize.delta2
       Stabilize.errorGyroI Stabilize.softwareTrim Stabilize.model
       Stabilize.imuConfig Stabilize.config] in *.
  injection HL as -> ->. injection H1 as -> ->. injection H2 as -> ->.
  injection HG as -> -> ->. injection HT as -> -> ->.
  StabilizeFacts.step_level.
  rewrite RestFacts.level_out_zero in Eo by first [assumption | reflexivity | (unfold AXIS_ROLL, AXIS_PITCH; cbn; first [lia | assumption])].
  StabilizeFacts.step_level.
  rewrite RestFacts.level_out_zero in Eo0 by first [assumption | reflexivity | (unfold AXIS_ROLL, AXIS_PITCH; cbn; first [lia | assumption])].
  rewrite StabilizeFacts.computeITermGyro_eq. StabilizeFacts.fields.
  rewrite StabilizeFacts.computePid_value. StabilizeFacts.fields.
  subst out out0.
  unfold AXIS_ROLL, AXIS_PITCH, AXIS_YAW.
  cbn [insert list_insert lookup_total list_lookup_total].
  rewrite !RestFacts.gyroI_next_zero by (assumption || reflexivity).
  StabilizeFacts.fields. cbn [lookup_total list_lookup_total].
  rewrite RestFacts.to_int32_mul_zero by assumption.
  rewrite RestFacts.pid_value_zero by assumption.
  change (Z.abs 0) with 0. rewrite Z.add_0_r.
  apply F32Facts.in_int16_bounds in HtY.
  destruct (ClampFacts.int16_constrainAbs tY 100 ltac:(lia) HtY) as [-> _].
  reflexivity.
Qed.

Lemma rest_outputs_are_clamped_trims_witness :
  Stabilize.axisPids
    (Stabilize.update Examples.fresh F32.zero F32.zero F32.zero [0; 0; 0]
       [F32.zero; F32.zero; F32.zero])
  = [5; -7; Filter.constrainAbs 200 100].
Proof.
  apply (rest_outputs_are_clamped_trims Examples.fresh 5 (-7) 200);
    reflexivity.
Defined.

(** C8.  [resetIntegral] sets every integral accumulator to zero, whatever
    the object held before: the three [errorGyroI] and the two [errorAngleI]
    of [Stabilize], and [_errorI] of [AnglePid].  Calling it a second time
    changes nothing. *)
Theorem resetIntegral_zeroes_accumulators :
  (forall s : Stabilize.t,
      Stabilize.wf s = true ->
      Stabilize.errorGyroI (Stabilize.resetIntegral s) = [0; 0; 0]
      /\ Stabilize.errorAngleI (Stabilize.resetIntegral s) = [0; 0])
  /\ (forall s : Stabilize.t,
        Stabilize.resetIntegral (Stabilize.resetIntegral s)
        = Stabilize.resetIntegral s)
  /\ (forall p : AnglePid.t,
        AnglePid._errorI (AnglePid.resetIntegral p) = F32.zero)
  /\ (forall p : AnglePid.t,
        AnglePid.resetIntegral (AnglePid.resetIntegral p)
        = AnglePid.resetIntegral p).
Proof.
  split; [|split; [|split]].
  - intros s H. destruct s as [ap lg d1 d2 eg ea st bd m ic c].
    StabilizeFacts.shape H. split; reflexivity.
  - intros [ap lg d1 d2 eg ea st bd m ic c].
    unfold Stabilize.resetIntegral, AXIS_ROLL, AXIS_PITCH, AXIS_YAW.
    StabilizeFacts.fields.
    destruct eg as [|a [|b [|c' l]]], ea as [|a' [|b' l']]; reflexivity.
  - intros p. reflexivity.
  - intros p. reflexivity.
Qed.

Lemma resetIntegral_zeroes_accumulators_witness :
  Stabilize.wf Examples.flown = true
  /\ Stabilize.errorGyroI (Stabilize.resetIntegral Examples.flown) = [0; 0; 0]
  /\ Stabilize.errorAngleI (Stabilize.resetIntegral Examples.flown) = [0; 0].
Proof.
  split; [reflexivity|].
  apply (proj1 resetIntegral_zeroes_accumulators Examples.flown). reflexivity.
Defined.

(** C9.  [errorAngleI] is written on every tick and never read back into
    the outputs: two objects that differ at most in [errorAngleI] give the
    same three [axisPids] for the same inputs; and the update stores in
    [errorAngleI] the new clamped sums for roll and pitch. *)
Theorem errorAngleI_never_read :
  (forall (s1 s2 : Stabilize.t)
      (rcCommandRoll rcCommandPitch rcCommandYaw : float)
      (gyroRaw : list Z) (eulerAnglesDegrees : list float),
      Stabilize.differ_only_in_errorAngleI s1 s2 ->
      Stabilize.axisPids
        (Stabilize.update s1 rcCommandRoll rcCommandPitch rcCommandYaw gyroRaw
           eulerAnglesDegrees)
      = Stabilize.axisPids
          (Stabilize.update s2 rcCommandRoll rcCommandPitch rcCommandYaw gyroRaw
             eulerAnglesDegrees))
  /\ (forall (s : Stabilize.t)
        (rcCommandRoll rcCommandPitch rcCommandYaw : float)
        (gyroRaw : list Z) (eulerAnglesDegrees : list float),
        Stabilize.wf s = true ->
        Stabilize.errorAngleI
          (Stabilize.update s rcCommandRoll rcCommandPitch rcCommandYaw gyroRaw
             eulerAnglesDegrees)
        = [Stabilize.angleI_next (Stabilize.config s) (Stabilize.imuConfig s)
             (Stabilize.errorAngleI s !!! AXIS_ROLL)
             (Stabilize.demand_of rcCommandRoll) eulerAnglesDegrees AXIS_ROLL;
           Stabilize.angleI_next (Stabilize.config s) (Stabilize.imuConfig s)
             (Stabilize.errorAngleI s !!! AXIS_PITCH)
             (Stabilize.demand_of rcCommandPitch) eulerAnglesDegrees AXIS_PITCH]).
Proof.
  split.
  - intros s1 s2 rR rP rY g eu Hd. unfold Stabilize.update.
    destruct (StabilizeFacts.update_demands_errorAngleI
                (Stabilize.errorAngleI s1) s2
                (Stabilize.demand_of rR) (Stabilize.demand_of rP)
                (Stabilize.demand_of rY) g eu) as [v' Hv].
    replace s1
      with (More.with_board (Stabilize.board s1)
              (Stabilize.set_errorAngleI (Stabilize.errorAngleI s1) s2)).
    + rewrite StabilizeFacts.update_demands_board, Hv.
      rewrite StabilizeFacts.axisPids_with_board.
      apply StabilizeFacts.axisPids_set_errorAngleI.
    + destruct s1, s2.
      unfold Stabilize.differ_only_in_errorAngleI in Hd.
      unfold More.with_board. StabilizeFacts.fields.
      cbn [Stabilize.axisPids Stabilize.lastGyro
        Stabilize.delta1 Stabilize.delta2 Stabilize.errorGyroI
        Stabilize.softwareTrim Stabilize.board Stabilize.model
        Stabilize.imuConfig Stabilize.config] in Hd.
      destruct Hd as (-> & -> & -> & -> & -> & -> & -> & -> & ->).
      reflexivity.
  - intros s rR rP rY g eu H. unfold Stabilize.update.
    destruct s as [ap lg d1 d2 eg ea st bd m ic c]. StabilizeFacts.shape H.
    match goal with
    | |- context [Stabilize.update_demands ?s ?a ?b ?c ?g ?e] =>
        destruct (StabilizeFacts.update_demands_accumulators s a b c g e
                    _ _ _ _ _ eq_refl eq_refl) as [_ ->]
    end.
    reflexivity.
Qed.

Lemma errorAngleI_never_read_witness :
  Stabilize.axisPids
    (Stabilize.update Examples.flown F32.one_half F32.zero F32.zero
       [60; -3; 2] Examples.tilted)
  = Stabilize.axisPids
      (Stabilize.update (Stabilize.set_errorAngleI [0; 0] Examples.flown)
         F32.one_half F32.zero F32.zero [60; -3; 2] Examples.tilted)
  /\ Stabilize.errorAngleI
       (Stabilize.update Examples.flown F32.one_half F32.zero F32.zero
          [60; -3; 2] Examples.tilted)
     = [Stabilize.angleI_next Examples.cfg Examples.imu 700
          (Stabilize.demand_of F32.one_half) Examples.tilted AXIS_ROLL;
        Stabilize.angleI_next Examples.cfg Examples.imu (-40)
          (Stabilize.demand_of F32.zero) Examples.tilted AXIS_PITCH].
Proof.
  split.
  - apply (proj1 errorAngleI_never_read Examples.flown
             (Stabilize.set_errorAngleI [0; 0] Examples.flown)).
    repeat split.
  - apply (proj2 errorAngleI_never_read Examples.flown). reflexivity.
Defined.
(** C10.  [resetIntegral] writes the integral accumulators and nothing else:
    in [Stabilize] the derivative history, the trims, the outputs, the
    configuration and the board pointer stay as they are, in [AnglePid] the
    last error, the gains, the demand scale and the reset threshold. *)
Theorem resetIntegral_frame :
  (forall s : Stabilize.t,
      Stabilize.lastGyro (Stabilize.resetIntegral s) = Stabilize.lastGyro s
      /\ Stabilize.delta1 (Stabilize.resetIntegral s) = Stabilize.delta1 s
      /\ Stabilize.delta2 (Stabilize.resetIntegral s) = Stabilize.delta2 s
      /\ Stabilize.softwareTrim (Stabilize.resetIntegral s)
         = Stabilize.softwareTrim s
      /\ Stabilize.axisPids (Stabilize.resetIntegral s) = Stabilize.axisPids s
      /\ Stabilize.model (Stabilize.resetIntegral s) = Stabilize.model s
      /\ Stabilize.imuConfig (Stabilize.resetIntegral s) = Stabilize.imuConfig s
      /\ Stabilize.config (Stabilize.resetIntegral s) = Stabilize.config s
      /\ Stabilize.board (Stabilize.resetIntegral s) = Stabilize.board s)
  /\ (forall p : AnglePid.t,
        AnglePid._lastError (AnglePid.resetIntegral p) = AnglePid._lastError p
        /\ AnglePid._P (AnglePid.resetIntegral p) = AnglePid._P p
        /\ AnglePid._I (AnglePid.resetIntegral p) = AnglePid._I p
        /\ AnglePid._D (AnglePid.resetIntegral p) = AnglePid._D p
        /\ AnglePid._demandScale (AnglePid.resetIntegral p)
           = AnglePid._demandScale p
        /\ AnglePid._bigAngularVelocity (AnglePid.resetIntegral p)
           = AnglePid._bigAngularVelocity p).
Proof.
  split.
  - intros s. unfold Stabilize.resetIntegral. StabilizeFacts.fields.
    repeat split.
  - intros p. unfold AnglePid.resetIntegral. AnglePidFacts.fields.
    repeat split.
Qed.


(** * Further properties of the code *)

(** X1.  The derivative history of [Stabilize] is the last three gyro
    readings and nothing else: after three updates from any object,
    [lastGyro] holds the third reading of roll and pitch, [delta1] the
    change from the second to the third and [delta2] the change from the
    first to the second, whatever the object held before and whatever the
    demands and the Euler angles were. *)
Theorem history_is_last_three_readings :
  forall (s : Stabilize.t) (t1 t2 t3 : Stabilize.tick),
    Stabilize.wf s = true ->
    let g1 := Stabilize.tick_gyro t1 in
    let g2 := Stabilize.tick_gyro t2 in
    let g3 := Stabilize.tick_gyro t3 in
    let s3 := Stabilize.run s [t1; t2; t3] in
    Stabilize.lastGyro s3 = [g3 !!! AXIS_ROLL; g3 !!! AXIS_PITCH]
    /\ Stabilize.delta1 s3
       = [Int.int32 (g3 !!! AXIS_ROLL - g2 !!! AXIS_ROLL);
          Int.int32 (g3 !!! AXIS_PITCH - g2 !!! AXIS_PITCH)]
    /\ Stabilize.delta2 s3
       = [Int.int32 (g2 !!! AXIS_ROLL - g1 !!! AXIS_ROLL);
          Int.int32 (g2 !!! AXIS_PITCH - g1 !!! AXIS_PITCH)].
Proof.
  intros s t1 t2 t3 H g1 g2 g3 s3. subst g1 g2 g3 s3.
  apply HistoryFacts.run3_history. exact H.
Qed.

Lemma history_is_last_three_readings_witness :
  Stabilize.lastGyro
    (Stabilize.run Examples.flown
       [More.rest_tick; More.rest_tick; More.rest_tick])
  = [0; 0].
Proof.
  apply (history_is_last_three_readings Examples.flown More.rest_tick
           More.rest_tick More.rest_tick).
  reflexivity.
Defined.

(** X2.  The D term of [computeLevelPid] spans three ticks: once three
    updates have run, the D term of roll or pitch for a fourth reading is
    the gain [ratePitchrollD] times the change of the gyro reading since
    the first of those updates (all four readings being [int16_t]), so it
    is 0 when the reading is back at that value and the gain is finite. *)
Theorem DTerm_spans_three_ticks :
  forall (s : Stabilize.t) (t1 t2 t3 : Stabilize.tick) (rcCommand : Z)
         (prop : float) (g4 : list Z) (eu : list float) (axis : nat),
    Stabilize.wf s = true ->
    (axis < 2)%nat ->
    More.int16_at axis (Stabilize.tick_gyro t1)
    && More.int16_at axis (Stabilize.tick_gyro t2)
    && More.int16_at axis (Stabilize.tick_gyro t3)
    && More.int16_at axis g4 = true ->
    let s3 := Stabilize.run s [t1; t2; t3] in
    let D := Stabilize.DTerm (Stabilize.terms_of s3 rcCommand prop g4 eu axis) in
    D = F32.to_int32
          (F32.mul (F32.of_Z (g4 !!! axis - Stabilize.tick_gyro t1 !!! axis))
             (ratePitchrollD (Stabilize.model s)))
    /\ (g4 !!! axis = Stabilize.tick_gyro t1 !!! axis ->
        F32.is_finite (ratePitchrollD (Stabilize.model s)) = true ->
        D = 0).
Proof.
  intros s t1 t2 t3 rc prop g4 eu ax H Hax Hg s3 D.
  apply andb_prop in Hg. destruct Hg as [Hg H4].
  apply andb_prop in Hg. destruct Hg as [Hg H3].
  apply andb_prop in Hg. destruct Hg as [H1 H2].
  unfold More.int16_at in *.
  assert (HD : D = F32.to_int32
          (F32.mul (F32.of_Z (g4 !!! ax - Stabilize.tick_gyro t1 !!! ax))
             (ratePitchrollD (Stabilize.model s)))).
  { subst D s3. rewrite NextFacts.terms_of_DTerm.
    destruct (NextFacts.run_frame [t1; t2; t3] s H) as (_ & _ & _ & -> & _).
    destruct (HistoryFacts.run3_history s t1 t2 t3 H) as (-> & -> & ->).
    do 2 f_equal. f_equal.
    assert (ax = AXIS_ROLL \/ ax = AXIS_PITCH) as [-> | ->]
      by (unfold AXIS_ROLL, AXIS_PITCH; lia).
    - rewrite !(proj1 (HistoryFacts.lookup2 _ _)).
      rewrite !HistoryFacts.int32_diff by assumption.
      apply F32Facts.in_int16_bounds in H1, H2, H3, H4.
      rewrite (IntFacts.int32_id (_ - _ + (_ - _))) by lia.
      rewrite IntFacts.int32_id by lia. lia.
    - rewrite !(proj2 (HistoryFacts.lookup2 _ _)).
      rewrite !HistoryFacts.int32_diff by assumption.
      apply F32Facts.in_int16_bounds in H1, H2, H3, H4.
      rewrite (IntFacts.int32_id (_ - _ + (_ - _))) by lia.
      rewrite IntFacts.int32_id by lia. lia. }
  split; [exact HD|].
  intros Heq Hfin. rewrite HD, Heq, Z.sub_diag.
  apply RestFacts.to_int32_mul_zero. exact Hfin.
Qed.

Lemma DTerm_spans_three_ticks_witness :
  Stabilize.DTerm
    (Stabilize.terms_of
       (Stabilize.run Examples.flown
          [More.rest_tick; More.rest_tick; More.rest_tick])
       0 F32.zero [25; 0; 0] Examples.level AXIS_ROLL)
  = F32.to_int32 (F32.mul (F32.of_Z (25 - 0)) F32.one).
Proof.
  apply (DTerm_spans_three_ticks Examples.flown More.rest_tick More.rest_tick
           More.rest_tick 0 F32.zero [25; 0; 0] Examples.level AXIS_ROLL);
    [reflexivity | unfold AXIS_ROLL; lia | reflexivity].
Defined.

(** X3.  No sequence of updates changes what [init] configured: the
    configuration, the IMU limits, the model with its gains and the
    software trims stay as they were, and the arrays keep their lengths. *)
Theorem run_keeps_configuration :
  forall (s : Stabilize.t) (ticks : list Stabilize.tick),
    Stabilize.wf s = true ->
    Stabilize.wf (Stabilize.run s ticks) = true
    /\ Stabilize.config (Stabilize.run s ticks) = Stabilize.config s
    /\ Stabilize.imuConfig (Stabilize.run s ticks) = Stabilize.imuConfig s
    /\ Stabilize.model (Stabilize.run s ticks) = Stabilize.model s
    /\ Stabilize.softwareTrim (Stabilize.run s ticks)
       = Stabilize.softwareTrim s.
Proof. intros s ticks H. apply NextFacts.run_frame. exact H. Qed.

Lemma run_keeps_configuration_witness :
  Stabilize.softwareTrim (Stabilize.run Examples.fresh Examples.ticks)
  = Stabilize.softwareTrim Examples.fresh.
Proof.
  apply (run_keeps_configuration Examples.fresh Examples.ticks). reflexivity.
Defined.

(** X4.  [init] followed by at least one update leaves nothing of what the
    object held before [init], the [board] pointer apart: of two objects
    with any earlier contents, initialised with the same configuration and
    model and run on the same ticks, one is the other with its own [board],
    which no method writes.  ([init] does not write [axisPids] either, but
    the first update overwrites all three entries without reading them.) *)
Theorem init_forgets_previous_memory :
  forall (s1 s2 : Stabilize.t) (cfg : StabilizeConfig) (imu : ImuConfig)
         (mdl : Model) (ticks : list Stabilize.tick),
    Stabilize.wf s1 = true -> Stabilize.wf s2 = true -> ticks <> [] ->
    Stabilize.run (Stabilize.init s1 cfg imu mdl) ticks
    = More.with_board (Stabilize.board s1)
        (Stabilize.run (Stabilize.init s2 cfg imu mdl) ticks)
    /\ Stabilize.board (Stabilize.run (Stabilize.init s2 cfg imu mdl) ticks)
       = Stabilize.board s2.
Proof.
  intros s1 s2 cfg imu mdl [|i rest] H1 H2 Hne; [congruence|].
  cbn [Stabilize.run].
  rewrite !NextFacts.update_next by (apply HistoryFacts.init_wf; assumption).
  rewrite (HistoryFacts.init_set_axisPids s1) by exact H1.
  rewrite (HistoryFacts.init_set_axisPids s2) by exact H2.
  rewrite !HistoryFacts.next_with_board.
  rewrite !HistoryFacts.next_ignores_axisPids.
  rewrite !HistoryFacts.run_with_board
    by (apply NextFacts.next_wf; reflexivity).
  rewrite HistoryFacts.with_board_twice, HistoryFacts.board_with_board.
  split; reflexivity.
Qed.

Lemma init_forgets_previous_memory_witness :
  Stabilize.run (Stabilize.init Examples.raw Examples.cfg Examples.imu
                   Examples.mdl) Examples.ticks
  = More.with_board 8192
      (Stabilize.run (Stabilize.init Examples.flown Examples.cfg Examples.imu
                        Examples.mdl) Examples.ticks).
Proof.
  apply (init_forgets_previous_memory Examples.raw Examples.flown);
    [reflexivity | reflexivity | discriminate].
Defined.

(** X5.  The yaw channel of [update] is on its own: the yaw output and
    what is kept for yaw depend only on the yaw demand, the yaw gyro
    reading, the yaw rate integral, the yaw trim, the model and the
    configuration; the roll and pitch demands, the other gyro readings, the
    Euler angles and the rest of the object have no effect on them. *)
Theorem yaw_channel_is_separate :
  forall (s s' : Stabilize.t) (rR rP rR' rP' rY : float) (g g' : list Z)
         (eu eu' : list float),
    Stabilize.wf s = true -> Stabilize.wf s' = true ->
    Stabilize.model s = Stabilize.model s' ->
    Stabilize.config s = Stabilize.config s' ->
    More.yaw_view s = More.yaw_view s' ->
    g !!! AXIS_YAW = g' !!! AXIS_YAW ->
    let u := Stabilize.update s rR rP rY g eu in
    let u' := Stabilize.update s' rR' rP' rY g' eu' in
    Stabilize.axisPids u !!! AXIS_YAW = Stabilize.axisPids u' !!! AXIS_YAW
    /\ More.yaw_view u = More.yaw_view u'.
Proof.
  intros s s' rR rP rR' rP' rY g g' eu eu' H H' Hm Hc Hv Hg u u'.
  subst u u'. rewrite !NextFacts.update_next by assumption.
  rewrite !SeparationFacts.axisPids_next_yaw, !SeparationFacts.yaw_view_next.
  unfold More.yaw_view in Hv. injection Hv as HG HT.
  rewrite Hm, Hc, HG, HT.
  rewrite (SeparationFacts.yaw_value_ext _ _ _ _ _ g g' Hg).
  rewrite (SeparationFacts.gyroI_next_ext _ _ _ _ g g' _ Hg).
  split; reflexivity.
Qed.

Lemma yaw_channel_is_separate_witness :
  Stabilize.axisPids
    (Stabilize.update Examples.flown F32.one F32.one_half F32.zero [60; -3; 2]
       Examples.tilted) !!! AXIS_YAW
  = Stabilize.axisPids
      (Stabilize.update Examples.flown F32.zero F32.zero F32.zero [5; 1; 2]
         Examples.level) !!! AXIS_YAW.
Proof.
  apply (yaw_channel_is_separate Examples.flown Examples.flown F32.one
           F32.one_half F32.zero F32.zero F32.zero [60; -3; 2] [5; 1; 2]
           Examples.tilted Examples.level);
    reflexivity.
Defined.

(** X6.  Roll and pitch are levelled separately: the output of [update]
    for roll (or pitch) and what is kept for that axis depend only on the
    two cyclic demands, on the gyro reading and the Euler angle of that
    axis, and on what the object keeps for that axis; the yaw demand, the
    readings of the other axes and the other entries of the object have no
    effect on them. *)
Theorem level_axis_is_separate :
  forall (s s' : Stabilize.t) (rR rP rY rY' : float) (g g' : list Z)
         (eu eu' : list float) (axis : nat),
    Stabilize.wf s = true -> Stabilize.wf s' = true -> (axis < 2)%nat ->
    Stabilize.model s = Stabilize.model s' ->
    Stabilize.imuConfig s = Stabilize.imuConfig s' ->
    Stabilize.config s = Stabilize.config s' ->
    More.axis_view axis s = More.axis_view axis s' ->
    g !!! axis = g' !!! axis -> eu !!! axis = eu' !!! axis ->
    let u := Stabilize.update s rR rP rY g eu in
    let u' := Stabilize.update s' rR rP rY' g' eu' in
    Stabilize.axisPids u !!! axis = Stabilize.axisPids u' !!! axis
    /\ More.axis_view axis u = More.axis_view axis u'.
Proof.
  intros s s' rR rP rY rY' g g' eu eu' ax H H' Hax Hm Hi Hc Hv Hg He u u'.
  subst u u'. rewrite !NextFacts.update_next by assumption.
  unfold More.axis_view in Hv. injection Hv as HG HA HL H1 H2 HT.
  assert (ax = AXIS_ROLL \/ ax = AXIS_PITCH) as [-> | ->]
    by (unfold AXIS_ROLL, AXIS_PITCH; lia).
  - rewrite !SeparationFacts.axisPids_next_roll,
      !SeparationFacts.axis_view_next_roll.
    rewrite Hm, Hi, Hc, HG, HA, HL, H1, H2, HT.
    rewrite (SeparationFacts.level_value_ext _ _ _ _ _ _ _ _ _ _ g g' eu eu'
               _ Hg He).
    rewrite (SeparationFacts.gyroI_next_ext _ _ _ _ g g' _ Hg).
    rewrite (SeparationFacts.angleI_next_ext _ _ _ _ eu eu' _ He).
    rewrite Hg. split; reflexivity.
  - rewrite !SeparationFacts.axisPids_next_pitch,
      !SeparationFacts.axis_view_next_pitch.
    rewrite Hm, Hi, Hc, HG, HA, HL, H1, H2, HT.
    rewrite (SeparationFacts.level_value_ext _ _ _ _ _ _ _ _ _ _ g g' eu eu'
               _ Hg He).
    rewrite (SeparationFacts.gyroI_next_ext _ _ _ _ g g' _ Hg).
    rewrite (SeparationFacts.angleI_next_ext _ _ _ _ eu eu' _ He).
    rewrite Hg. split; reflexivity.
Qed.

Lemma level_axis_is_separate_witness :
  Stabilize.axisPids
    (Stabilize.update Examples.flown F32.one_half F32.zero F32.one [5; -3; 2]
       Examples.tilted) !!! AXIS_ROLL
  = Stabilize.axisPids
      (Stabilize.update Examples.flown F32.one_half F32.zero F32.zero
         [5; 1; 0] [F32.of_Z 10; F32.one; F32.one]) !!! AXIS_ROLL.
Proof.
  apply (level_axis_is_separate Examples.flown Examples.flown F32.one_half
           F32.zero F32.one F32.zero [5; -3; 2] [5; 1; 0] Examples.tilted
           [F32.of_Z 10; F32.one; F32.one] AXIS_ROLL);
    try reflexivity.
  unfold AXIS_ROLL. lia.
Defined.

(** X7.  A gain of zero switches its term off in [computeLevelPid]: with
    [ratePitchrollI] zero the rate integral term and its share of the
    output are 0 (for a proportion that is a number), with [levelP] zero
    the angle-loop P term is 0, and with [ratePitchrollD] zero the D term
    is 0, whatever the object holds and whatever the inputs are. *)
Theorem zero_gain_removes_its_term :
  forall (s : Stabilize.t) (rcCommand : Z) (prop : float) (g : list Z)
         (eu : list float) (axis : nat),
    let tm := Stabilize.terms_of s rcCommand prop g eu axis in
    (More.is_zero (ratePitchrollI (Stabilize.model s)) = true ->
     F32.is_finite prop = true ->
     Stabilize.ITermGyro tm = 0 /\ Stabilize.ITerm tm = 0)
    /\ (More.is_zero (levelP (Stabilize.model s)) = true ->
        Stabilize.PTermAccel tm = 0)
    /\ (More.is_zero (ratePitchrollD (Stabilize.model s)) = true ->
        Stabilize.DTerm tm = 0).
Proof.
  intros s rc prop g eu ax tm. subst tm.
  destruct (StabilizeFacts.terms_of_eq s rc prop g eu ax) as (HG & HPA & _ & HI).
  cbn zeta in HG, HPA, HI.
  split; [|split].
  - intros Hz Hp.
    assert (H0 : Stabilize.ITermGyro (Stabilize.terms_of s rc prop g eu ax) = 0).
    { rewrite HG, StabilizeFacts.computeITermGyro_eq. cbn [fst].
      apply HistoryFacts.to_int32_mul_of_Z_zero; [|exact Hz].
      destruct (Nat.lt_ge_cases ax (length (Stabilize.errorGyroI s))) as [Hl|Hl].
      - rewrite IntegralFacts.lookup_total_insert_Z by exact Hl.
        unfold Stabilize.gyroI_next.
        destruct (Stabilize.resets _ _ _ _); [simpl; lia|].
        apply HistoryFacts.int32_abs.
      - rewrite list_lookup_total_alt, lookup_ge_None_2
          by (rewrite length_insert; lia).
        vm_compute. discriminate. }
    split; [exact H0|].
    rewrite HI, <- HG, H0. apply RestFacts.to_int32_mul_zero. exact Hp.
  - intros Hz. rewrite HPA.
    apply HistoryFacts.to_int32_mul_of_Z_zero; [|exact Hz].
    unfold Stabilize.errorAngle_of. apply HistoryFacts.int32_abs.
  - intros Hz. rewrite NextFacts.terms_of_DTerm.
    apply HistoryFacts.to_int32_mul_of_Z_zero; [|exact Hz].
    apply HistoryFacts.int32_abs.
Qed.

Lemma zero_gain_removes_its_term_witness :
  Stabilize.PTermAccel
    (Stabilize.terms_of
       (Stabilize.init Examples.raw Examples.cfg Examples.imu
          {| ratePitchrollP := F32.one; ratePitchrollI := F32.zero;
             ratePitchrollD := F32.zero; yawP := F32.one; yawI := F32.one;
             levelP := F32.zero; softwareTrimRoll := 0;
             softwareTrimPitch := 0; softwareTrimYaw := 0 |})
       300 F32.one_half [5; 0; 0] Examples.tilted AXIS_ROLL)
  = 0.
Proof.
  apply (zero_gain_removes_its_term
           (Stabilize.init Examples.raw Examples.cfg Examples.imu
              {| ratePitchrollP := F32.one; ratePitchrollI := F32.zero;
                 ratePitchrollD := F32.zero; yawP := F32.one; yawI := F32.one;
                 levelP := F32.zero; softwareTrimRoll := 0;
                 softwareTrimPitch := 0; softwareTrimYaw := 0 |})
           300 F32.one_half [5; 0; 0] Examples.tilted AXIS_ROLL).
  reflexivity.
Defined.

(** X8.  The proportion [update] blends with is not capped at 1.  For
    demands in the receiver's range (at most 1000 in magnitude, a command
    of at most 1), [prop] is a number from 0 to 2; it is 0 exactly when
    both cyclic sticks are centred, it is at most 1 exactly when the larger
    stick magnitude is at most 500, and it is 1 exactly at 500: beyond half
    stick the proportion exceeds 1. *)
Theorem prop_of_nominal_demands :
  forall demandRoll demandPitch : Z,
    Z.abs demandRoll <= 1000 -> Z.abs demandPitch <= 1000 ->
    let k := Z.max (Z.abs demandRoll) (Z.abs demandPitch) in
    let p := Stabilize.prop_of demandRoll demandPitch in
    F32.is_finite p = true
    /\ F32.leb F32.zero p = true
    /\ F32.leb p (F32.of_Z 2) = true
    /\ (More.is_zero p = true <-> demandRoll = 0 /\ demandPitch = 0)
    /\ (F32.leb p F32.one = true <-> k <= 500)
    /\ (More.eqb p F32.one = true <-> k = 500).
Proof.
  intros dR dP HR HP k p.
  pose proof (PropFacts.prop_check_nominal dR dP HR HP) as H.
  unfold More.prop_check in H. cbn zeta in H.
  rewrite <- PropFacts.prop_of_max in H. fold k p in H.
  apply andb_prop in H. destruct H as [H H1].
  apply andb_prop in H. destruct H as [H H500].
  apply andb_prop in H. destruct H as [H H0].
  apply andb_prop in H. destruct H as [H H2].
  apply andb_prop in H. destruct H as [Hf Hp].
  apply Bool.eqb_prop in H1, H500, H0.
  split; [exact Hf|]. split; [exact Hp|]. split; [exact H2|].
  rewrite H0, H500, H1, Z.eqb_eq, Z.leb_le, Z.eqb_eq.
  split; [|split; reflexivity].
  subst k. lia.
Qed.

Lemma prop_of_nominal_demands_witness :
  F32.leb (Stabilize.prop_of 1000 (-200)) F32.one = true
  <-> Z.max (Z.abs 1000) (Z.abs (-200)) <= 500.
Proof.
  apply (prop_of_nominal_demands 1000 (-200)); simpl; lia.
Defined.

(** X9.  The rate integral of [computeITermGyro] adds up without loss
    inside its bound: when the call does not reset the integral and the
    sum of the accumulator and the error fits an [int32_t], the new
    accumulator of the axis is that sum clamped to [gyroWindupMax] (the sum
    itself when it is within the bound), and the term returned is that
    accumulator times the integral gain. *)
Theorem computeITermGyro_accumulates :
  forall (s : Stabilize.t) (rateP rateI : float) (rcCommand : Z)
         (g : list Z) (axis : nat),
    (axis < length (Stabilize.errorGyroI s))%nat ->
    Stabilize.resets (Stabilize.config s) rcCommand g axis = false ->
    0 <= gyroWindupMax (Stabilize.config s) ->
    let error :=
      Int.int32 (F32.to_int32 (F32.mul (F32.of_Z rcCommand) rateP)
                 - g !!! axis) in
    let sum := Stabilize.errorGyroI s !!! axis + error in
    let r := Stabilize.computeITermGyro s rateP rateI rcCommand g axis in
    Int.in_int32 sum = true ->
    Stabilize.errorGyroI (snd r) !!! axis
    = Filter.constrainAbs sum (gyroWindupMax (Stabilize.config s))
    /\ (Z.abs sum <= gyroWindupMax (Stabilize.config s) ->
        Stabilize.errorGyroI (snd r) !!! axis = sum)
    /\ fst r
       = F32.to_int32
           (F32.mul
              (F32.of_Z
                 (Filter.constrainAbs sum (gyroWindupMax (Stabilize.config s))))
              rateI).
Proof.
  intros s rP rI rc g ax Hax Hr HW error sum r Hsum. subst r.
  destruct (IntegralFacts.computeITermGyro_errorGyroI s rP rI rc g ax Hax)
    as [-> ->].
  assert (HN : Stabilize.gyroI_next (Stabilize.config s)
                 (Stabilize.errorGyroI s !!! ax) rP rc g ax
               = Filter.constrainAbs sum (gyroWindupMax (Stabilize.config s))).
  { unfold Stabilize.gyroI_next. rewrite Hr. fold error. fold sum.
    apply F32Facts.in_int32_bounds in Hsum.
    rewrite (IntFacts.int32_id sum) by exact Hsum.
    apply (ClampFacts.int32_constrainAbs sum _ HW Hsum). }
  rewrite HN. split; [reflexivity|]. split; [|reflexivity].
  intros Hin. apply (ClampFacts.constrainAbs_cases sum _ HW). exact Hin.
Qed.

Lemma computeITermGyro_accumulates_witness :
  Stabilize.errorGyroI
    (snd (Stabilize.computeITermGyro Examples.flown F32.one F32.one 10
            [4; 0; 0] AXIS_ROLL)) !!! AXIS_ROLL
  = Filter.constrainAbs
      (3 + Int.int32 (F32.to_int32 (F32.mul (F32.of_Z 10) F32.one) - 4))
      16000.
Proof.
  apply (computeITermGyro_accumulates Examples.flown F32.one F32.one 10
           [4; 0; 0] AXIS_ROLL);
    [unfold AXIS_ROLL; simpl; lia | reflexivity | simpl; lia | reflexivity].
Defined.

(** X10.  Resetting the integrals gives no kick on the other terms: for
    the same inputs [computeLevelPid] computes the same angle-loop P term,
    the same blended P term and the same D term on the object after
    [resetIntegral] as on the object before it. *)
Theorem resetIntegral_keeps_P_and_D_terms :
  forall (s : Stabilize.t) (rcCommand : Z) (prop : float) (g : list Z)
         (eu : list float) (axis : nat),
    let tm := Stabilize.terms_of s rcCommand prop g eu axis in
    let tm' :=
      Stabilize.terms_of (Stabilize.resetIntegral s) rcCommand prop g eu axis in
    Stabilize.PTermAccel tm' = Stabilize.PTermAccel tm
    /\ Stabilize.PTerm tm' = Stabilize.PTerm tm
    /\ Stabilize.DTerm tm' = Stabilize.DTerm tm.
Proof.
  intros s rc prop g eu ax tm tm'. subst tm tm'.
  destruct (StabilizeFacts.terms_of_eq s rc prop g eu ax) as (_ & HPA & HP & _).
  destruct (StabilizeFacts.terms_of_eq (Stabilize.resetIntegral s) rc prop g
              eu ax) as (_ & HPA' & HP' & _).
  cbn zeta in HPA, HP, HPA', HP'.
  destruct (IntegralFacts.resetIntegral_fields s)
    as (HL & H1 & H2 & Hm & Hi & Hc).
  rewrite HPA', HP', HPA, HP, !NextFacts.terms_of_DTerm.
  rewrite HL, H1, H2, Hm, Hi. repeat split.
Qed.

(** X11.  Rest is a fixed point of [update]: from an object whose rate
    integrals and derivative history are zero, under a configuration with
    finite gains and non-negative gyro windup bound and inclination limit,
    any number of ticks with centred sticks, zero gyro readings and zero
    Euler angles leaves the rate integrals and the history zero, and the
    outputs at the roll and pitch trims and at the yaw trim clamped to 100
    in magnitude. *)
Theorem rest_is_a_fixed_point :
  forall (s : Stabilize.t) (n : nat) (trimRoll trimPitch trimYaw : Z),
    Stabilize.wf s = true ->
    Stabilize.sane (Stabilize.model s) (Stabilize.imuConfig s)
      (Stabilize.config s) = true ->
    More.rest_memory s ->
    Stabilize.softwareTrim s = [trimRoll; trimPitch; trimYaw] ->
    Int.in_int16 trimRoll && Int.in_int16 trimPitch && Int.in_int16 trimYaw
    = true ->
    let s' := Stabilize.run s (repeat More.rest_tick (S n)) in
    More.rest_memory s'
    /\ Stabilize.axisPids s'
       = [trimRoll; trimPitch; Filter.constrainAbs trimYaw 100].
Proof.
  intros s n tR tP tY. revert s.
  induction n as [|n IH]; intros s H Hs Hm HT Ht s'; subst s'.
  - rewrite StillFacts.repeat_S, StillFacts.run_rest_tick, StillFacts.run_nil.
    apply StillFacts.rest_step; assumption.
  - rewrite StillFacts.repeat_S, StillFacts.run_rest_tick.
    destruct (StillFacts.rest_step s tR tP tY H Hs Hm HT Ht) as [Hm' _].
    destruct (StillFacts.update_frame s F32.zero F32.zero F32.zero [0; 0; 0]
                [F32.zero; F32.zero; F32.zero] H)
      as (Hw & Hc & Hi & Hmd & Htr).
    apply IH; try assumption.
    + rewrite Hc, Hi, Hmd. exact Hs.
    + rewrite Htr. exact HT.
Qed.

Lemma rest_is_a_fixed_point_witness :
  Stabilize.axisPids
    (Stabilize.run Examples.fresh (repeat More.rest_tick 4))
  = [5; -7; Filter.constrainAbs 200 100].
Proof.
  apply (rest_is_a_fixed_point Examples.fresh 3 5 (-7) 200);
    try reflexivity.
  repeat split.
Defined.

(** X12.  [AnglePid] tracks the last error only under a positive D gain:
    when [_D] is not above zero, no sequence of calls of [compute] changes
    [_lastError]; when it is, each call stores the error of that call,
    scaled demand minus angular velocity. *)
Theorem lastError_follows_D_gain :
  forall p : AnglePid.t,
    (F32.ltb F32.zero (AnglePid._D p) = false ->
     forall inputs : list (float * float * float),
       AnglePid._lastError (AnglePid.run p inputs) = AnglePid._lastError p)
    /\ (F32.ltb F32.zero (AnglePid._D p) = true ->
        forall demand angularVelocity itermFactor : float,
          AnglePid._lastError
            (snd (AnglePid.compute p demand angularVelocity itermFactor))
          = F32.sub (F32.mul demand (AnglePid._demandScale p))
              angularVelocity).
Proof.
  intros p. split.
  - intros HD inputs. revert p HD.
    induction inputs as [|[[d av] f] rest IH]; intros p HD; [reflexivity|].
    rewrite RateFacts.run_cons, IH.
    + rewrite RateFacts.compute_eq. cbn [snd AnglePid._lastError].
      rewrite HD. reflexivity.
    + rewrite RateFacts.compute_eq. cbn [snd AnglePid._D]. exact HD.
  - intros HD d av f. rewrite RateFacts.compute_eq.
    cbn [snd AnglePid._lastError]. rewrite HD. reflexivity.
Qed.

Lemma lastError_follows_D_gain_witness :
  AnglePid._lastError
    (AnglePid.run (AnglePid.init F32.one F32.one F32.zero F32.one)
       Examples.pid_inputs)
  = F32.zero
  /\ AnglePid._lastError
       (snd (AnglePid.compute Examples.pid (F32.of_Z 4) F32.zero F32.one))
     = F32.sub (F32.mul (F32.of_Z 4) F32.one) F32.zero.
Proof.
  split.
  - apply (proj1 (lastError_follows_D_gain
                    (AnglePid.init F32.one F32.one F32.zero F32.one))).
    reflexivity.
  - apply (proj2 (lastError_follows_D_gain Examples.pid)). reflexivity.
Defined.

(** X13.  [compute] takes [itermFactor] and never uses it: the values
    returned over any sequence of calls, and the object left, are the same
    whatever factor is passed in each call. *)
Theorem itermFactor_is_ignored :
  forall (p : AnglePid.t) (inputs : list (float * float * float))
         (factor : float),
    More.outputs p (More.with_factor factor inputs) = More.outputs p inputs
    /\ AnglePid.run p (More.with_factor factor inputs)
       = AnglePid.run p inputs.
Proof.
  intros p inputs factor. revert p.
  induction inputs as [|[[d av] f] rest IH]; intros p; [split; reflexivity|].
  change (More.with_factor factor ((d, av, f) :: rest))
    with ((d, av, factor) :: More.with_factor factor rest).
  cbn [More.outputs]. rewrite !RateFacts.run_cons.
  rewrite (RateFacts.compute_eq p d av factor), (RateFacts.compute_eq p d av f).
  cbn zeta. cbn [fst snd].
  destruct (IH {|
     AnglePid._bigAngularVelocity := AnglePid._bigAngularVelocity p;
     AnglePid._P := AnglePid._P p; AnglePid._I := AnglePid._I p;
     AnglePid._D := AnglePid._D p;
     AnglePid._lastError :=
       if F32.ltb F32.zero (AnglePid._D p)
       then F32.sub (F32.mul d (AnglePid._demandScale p)) av
       else AnglePid._lastError p;
     AnglePid._errorI :=
       if F32.ltb (AnglePid._bigAngularVelocity p) (F32.abs av) then F32.zero
       else
         Filter.constrainAbsF
           (F32.add (AnglePid._errorI p)
              (F32.sub (F32.mul d (AnglePid._demandScale p)) av))
           AnglePid.WINDUP_MAX;
     AnglePid._demandScale := AnglePid._demandScale p |}) as [-> ->].
  split; reflexivity.
Qed.

(** X14.  A fast rotation leaves the P term alone in [compute]: when the
    angular velocity exceeds [_bigAngularVelocity] in magnitude, the value
    returned is numerically the P term (for a finite I gain and a P term
    that is a number), and neither the value nor the object left depends
    on the integral accumulated before the call. *)
Theorem fast_rotation_gives_P_term_only :
  forall (p : AnglePid.t) (demand angularVelocity itermFactor : float),
    F32.ltb (AnglePid._bigAngularVelocity p) (F32.abs angularVelocity) = true ->
    let r := AnglePid.compute p demand angularVelocity itermFactor in
    let Pterm :=
      F32.mul
        (F32.sub (F32.mul demand (AnglePid._demandScale p)) angularVelocity)
        (AnglePid._P p) in
    (F32.is_finite (AnglePid._I p) = true -> F32.is_nan Pterm = false ->
     More.eqb (fst r) Pterm = true)
    /\ (forall e : float,
          AnglePid.compute (AnglePid.set_errorI e p) demand angularVelocity
            itermFactor = r).
Proof.
  intros p d av f Hbig r Pterm. subst r Pterm. split.
  - intros HI HP. rewrite RateFacts.compute_eq. cbn zeta. cbn [fst].
    rewrite Hbig. apply RateFacts.add_zeros_eqb; [exact HP|].
    apply RateFacts.zero_mul_is_zero. exact HI.
  - intros e. rewrite !RateFacts.compute_eq. AnglePidFacts.fields.
    cbn zeta. rewrite Hbig. reflexivity.
Qed.

Lemma fast_rotation_gives_P_term_only_witness :
  More.eqb
    (fst (AnglePid.compute Examples.pid (F32.of_Z 4) (F32.of_Z 2) F32.one))
    (F32.mul (F32.sub (F32.mul (F32.of_Z 4) F32.one) (F32.of_Z 2)) F32.one)
  = true.
Proof.
  apply (fast_rotation_gives_P_term_only Examples.pid (F32.of_Z 4) (F32.of_Z 2)
           F32.one);
    reflexivity.
Defined.

(** X15.  With an I gain of zero [compute] is a P controller: on numbers
    (finite demand, angular velocity, demand scale and accumulator) the
    value returned is numerically the P term, whenever that term is a
    number. *)
Theorem zero_I_gain_gives_P_term_only :
  forall (p : AnglePid.t) (demand angularVelocity itermFactor : float),
    More.is_zero (AnglePid._I p) = true ->
    F32.is_finite (AnglePid._errorI p) = true ->
    F32.is_finite (AnglePid._demandScale p) = true ->
    F32.is_finite demand = true -> F32.is_finite angularVelocity = true ->
    let Pterm :=
      F32.mul
        (F32.sub (F32.mul demand (AnglePid._demandScale p)) angularVelocity)
        (AnglePid._P p) in
    F32.is_nan Pterm = false ->
    More.eqb (fst (AnglePid.compute p demand angularVelocity itermFactor))
      Pterm = true.
Proof.
  intros p d av f HI He Hs Hd Ha Pterm HP. subst Pterm.
  rewrite RateFacts.compute_eq. cbn zeta. cbn [fst].
  apply RateFacts.add_zeros_eqb; [exact HP|].
  apply RateFacts.mul_is_zero; [|exact HI].
  destruct (F32.ltb (AnglePid._bigAngularVelocity p) (F32.abs av));
    [reflexivity|].
  apply RateFacts.constrainAbsF_finite.
  apply F32Facts.add_not_nan; [assumption|].
  apply F32Facts.sub_not_nan; [|assumption].
  apply F32Facts.mul_not_nan; assumption.
Qed.

Lemma zero_I_gain_gives_P_term_only_witness :
  More.eqb
    (fst (AnglePid.compute (AnglePid.init F32.one F32.zero F32.one F32.one)
            (F32.of_Z 4) F32.one_half F32.one))
    (F32.mul (F32.sub (F32.mul (F32.of_Z 4) F32.one) F32.one_half) F32.one)
  = true.
Proof.
  apply (zero_I_gain_gives_P_term_only
           (AnglePid.init F32.one F32.zero F32.one F32.one) (F32.of_Z 4)
           F32.one_half F32.one);
    reflexivity.
Defined.

(** X16.  [USFSMAX_Inverted::adjustGyrometer] turns the z axis over and
    nothing else: x and y come back as they went in and z comes back
    negated, [-z]: a positive rate becomes a negative one and a negative
    rate a positive one, of the same magnitude.  Adjusting twice gives the
    readings back, and the three numbers it prints are the adjusted
    readings, the negated z and not the raw one. *)
Theorem adjustGyrometer_flips_z_only :
  forall x y z : float,
    let r := UsfsmaxInverted.adjustGyrometer x y z in
    let z' := snd (fst r) in
    fst (fst (fst r)) = x /\ snd (fst (fst r)) = y
    /\ z' = F32.opp z
    /\ F32.ltb z' F32.zero = F32.ltb F32.zero z
    /\ F32.ltb F32.zero z' = F32.ltb z F32.zero
    /\ F32.abs z' = F32.abs z
    /\ fst (UsfsmaxInverted.adjustGyrometer (fst (fst (fst r)))
              (snd (fst (fst r))) z')
       = (x, y, z)
    /\ snd r
       = [UsfsmaxInverted.Print_text UsfsmaxInverted.label_gx;
          UsfsmaxInverted.Print_float x;
          UsfsmaxInverted.Print_text UsfsmaxInverted.label_gy;
          UsfsmaxInverted.Print_float y;
          UsfsmaxInverted.Print_text UsfsmaxInverted.label_gz;
          UsfsmaxInverted.Println_float (F32.opp z)].
Proof.
  intros x y z r z'. subst z' r. unfold UsfsmaxInverted.adjustGyrometer.
  cbn [fst snd].
  repeat split; destruct z as [s|s| |s m e]; try reflexivity;
    destruct s; reflexivity.
Qed.

(** X17.  Landing clears the integral of [AnglePid]: after
    [updateReceiver] with the throttle down, the accumulator that the next
    call of [compute] leaves (at an angular velocity that is not above
    [_bigAngularVelocity]) is numerically the clamped error of that call
    alone, with nothing of what was accumulated in flight; with the
    throttle up [updateReceiver] leaves the object as it is. *)
Theorem landing_clears_integral :
  forall (p : AnglePid.t) (demand angularVelocity itermFactor : float),
    let error :=
      F32.sub (F32.mul demand (AnglePid._demandScale p)) angularVelocity in
    F32.ltb (AnglePid._bigAngularVelocity p) (F32.abs angularVelocity)
    = false ->
    F32.is_nan error = false ->
    More.eqb
      (AnglePid._errorI
         (snd (AnglePid.compute (AnglePid.updateReceiver p true) demand
                 angularVelocity itermFactor)))
      (Filter.constrainAbsF error AnglePid.WINDUP_MAX) = true
    /\ AnglePid.updateReceiver p false = p.
Proof.
  intros p d av f error Hbig Hn. split; [|reflexivity].
  rewrite AnglePidFacts.compute_errorI.
  unfold AnglePid.updateReceiver, AnglePid.resetIntegral.
  AnglePidFacts.fields. rewrite Hbig. fold error.
  destruct error as [s|s| |s m e] eqn:E; try discriminate.
  - destruct s; reflexivity.
  - destruct s; reflexivity.
  - change (F32.add F32.zero (S754_finite s m e)) with (S754_finite s m e).
    apply RateFacts.eqb_refl.
    assert (Hf : F32.is_finite
                   (Filter.constrainAbsF (S754_finite s m e)
                      AnglePid.WINDUP_MAX) = true)
      by (apply RateFacts.constrainAbsF_finite; reflexivity).
    destruct (Filter.constrainAbsF (S754_finite s m e) AnglePid.WINDUP_MAX);
      try discriminate; reflexivity.
Qed.

Lemma landing_clears_integral_witness :
  More.eqb
    (AnglePid._errorI
       (snd (AnglePid.compute
               (AnglePid.updateReceiver
                  (AnglePid.run Examples.pid Examples.pid_inputs) true)
               (F32.of_Z 4) F32.one_half F32.one)))
    (Filter.constrainAbsF
       (F32.sub (F32.mul (F32.of_Z 4) F32.one) F32.one_half)
       AnglePid.WINDUP_MAX)
  = true.
Proof.
  apply (landing_clears_integral
           (AnglePid.run Examples.pid Examples.pid_inputs) (F32.of_Z 4)
           F32.one_half F32.one);
    reflexivity.
Defined.
